(** * CocoaPods package README server: README parser and TTL cache

    A shallow embedding of [services/cache.ts] (class [MemoryCache]) and of
    [services/readme-parser.ts] (class [ReadmeParser]), with the properties
    the specification states about them.

    Conventions.
    - JavaScript numbers that hold timestamps, durations and sizes are
      integers ([Z]); [Date.now()] is an explicit argument [now].
    - A JavaScript string is a list of code units.  The development covers
      the code units 0..255 ([ascii], read as Latin-1).
    - A JavaScript [Map] iterates in insertion order, and [evictOldest]
      depends on that order: the store is an association list with
      distinct keys.
    - A call either returns or throws: a function that can throw returns a
      [result].
    - Logging has no effect on the results and is left out.  The interval
      timer of the cache only calls [cleanExpired]; the function is
      modelled, of the timer only whether it is installed. *)

From Stdlib Require Import List Ascii String ZArith Lia Bool Arith.
From Stdlib Require DecimalString.
Import ListNotations.

Set Implicit Arguments.

(** ** Outcome of a JavaScript call: a value or a thrown exception *)

Inductive exn : Type :=
| TypeError (msg : string).

Inductive result (A : Type) : Type :=
| Ok (a : A)
| Throw (e : exn).

Arguments Ok {A} a.
Arguments Throw {A} e.

Definition raises {A : Type} (r : result A) : bool :=
  match r with Ok _ => false | Throw _ => true end.

(** * The TTL cache ([MemoryCache]) *)

Module Cache.

(** [x || d] on an optional number: [undefined] and [0] are falsy. *)
Definition or_default (x : option Z) (d : Z) : Z :=
  match x with
  | Some v => if (v =? 0)%Z then d else v
  | None => d
  end.

(** Truthiness of a string: only the empty string is falsy. *)
Definition truthy (k : string) : bool :=
  match k with EmptyString => false | _ => true end.

Section MemoryCache.

Variable T : Type.

Record CacheEntry : Type := mkEntry
  { data : T; timestamp : Z; ttl : Z }.

Record CacheOptions : Type := mkOptions
  { opt_ttl : option Z; opt_maxSize : option Z }.

(** The [Map<string, CacheEntry>] in insertion order. *)
Definition store : Type := list (string * CacheEntry).

(** [cleanupInterval] tells whether the interval timer is installed. *)
Record MemoryCache : Type := mkCache
  { cache : store; defaultTtl : Z; maxSize : Z; cleanupInterval : bool }.

(** *** [Map] primitives *)

Fixpoint map_get (k : string) (m : store) : option CacheEntry :=
  match m with
  | [] => None
  | (k', e) :: m' => if String.eqb k k' then Some e else map_get k m'
  end.

(** [Map.prototype.set]: an existing key keeps its position. *)
Fixpoint map_set (k : string) (e : CacheEntry) (m : store) : store :=
  match m with
  | [] => [(k, e)]
  | (k', e') :: m' =>
      if String.eqb k k' then (k, e) :: m' else (k', e') :: map_set k e m'
  end.

Fixpoint map_delete (k : string) (m : store) : store :=
  match m with
  | [] => []
  | (k', e') :: m' =>
      if String.eqb k k' then m' else (k', e') :: map_delete k m'
  end.

Definition map_has (k : string) (m : store) : bool :=
  match map_get k m with Some _ => true | None => false end.

Definition map_keys (m : store) : list string := map fst m.

(** *** Construction *)

Definition constructor (options : CacheOptions) : result MemoryCache :=
  Ok {| cache := [];
        defaultTtl := or_default (opt_ttl options) 3600000;
        maxSize := or_default (opt_maxSize options) 1000;
        cleanupInterval := true |}.

Definition with_cache (c : MemoryCache) (m : store) : MemoryCache :=
  {| cache := m; defaultTtl := defaultTtl c; maxSize := maxSize c;
     cleanupInterval := cleanupInterval c |}.

Definition expired (now : Z) (e : CacheEntry) : bool :=
  (timestamp e + ttl e <? now)%Z.

(** *** [cleanExpired] *)

Definition cleanExpired (now : Z) (c : MemoryCache) : MemoryCache :=
  with_cache c (filter (fun ke => negb (expired now (snd ke))) (cache c)).

(** *** [evictOldest]

    The loop keeps [(oldestKey, oldestTime)], starting from
    [(null, Date.now())], and replaces it on a strictly smaller
    timestamp. *)

Definition oldest_step (acc : option string * Z) (ke : string * CacheEntry)
  : option string * Z :=
  if (timestamp (snd ke) <? snd acc)%Z
  then (Some (fst ke), timestamp (snd ke))
  else acc.

Definition oldest_scan (now : Z) (m : store) : option string * Z :=
  fold_left oldest_step m (None, now).

Definition evictOldest (now : Z) (c : MemoryCache) : MemoryCache :=
  match fst (oldest_scan now (cache c)) with
  | Some oldestKey =>
      if truthy oldestKey
      then with_cache c (map_delete oldestKey (cache c))
      else c
  | None => c
  end.

(** *** [set], [get], [has], [delete], [clear], [size], [keys]

    Both readings of the clock inside one call of [set] return [now]. *)

Definition size (c : MemoryCache) : Z := Z.of_nat (List.length (cache c)).

Definition set (key : string) (d : T) (ttl0 : option Z) (now : Z)
  (c : MemoryCache) : MemoryCache :=
  let c1 := if (maxSize c <=? size c)%Z then evictOldest now c else c in
  let entry := {| data := d; timestamp := now;
                  ttl := or_default ttl0 (defaultTtl c) |} in
  with_cache c1 (map_set key entry (cache c1)).

Definition get (key : string) (now : Z) (c : MemoryCache)
  : MemoryCache * option T :=
  match map_get key (cache c) with
  | None => (c, None)
  | Some entry =>
      if (timestamp entry + ttl entry <? now)%Z
      then (with_cache c (map_delete key (cache c)), None)
      else (c, Some (data entry))
  end.

Definition has (key : string) (now : Z) (c : MemoryCache)
  : MemoryCache * bool :=
  match map_get key (cache c) with
  | None => (c, false)
  | Some entry =>
      if (timestamp entry + ttl entry <? now)%Z
      then (with_cache c (map_delete key (cache c)), false)
      else (c, true)
  end.

Definition delete (key : string) (c : MemoryCache) : MemoryCache * bool :=
  (with_cache c (map_delete key (cache c)), map_has key (cache c)).

Definition clear (c : MemoryCache) : MemoryCache := with_cache c [].

Definition getStats (c : MemoryCache) : Z * Z := (size c, maxSize c).

Definition destroy (c : MemoryCache) : MemoryCache :=
  {| cache := []; defaultTtl := defaultTtl c; maxSize := maxSize c;
     cleanupInterval := false |}.

Definition keys (c : MemoryCache) : list string := map_keys (cache c).

(** A sequence of reads of one key: each is a [get] or a [has], at its own
    instant. *)
Inductive read : Type := ByGet | ByHas.

Definition read_once (key : string) (op : read * Z) (c : MemoryCache)
  : MemoryCache :=
  match fst op with
  | ByGet => fst (get key (snd op) c)
  | ByHas => fst (has key (snd op) c)
  end.

Definition reads (key : string) (ops : list (read * Z)) (c : MemoryCache)
  : MemoryCache :=
  fold_left (fun c' op => read_once key op c') ops c.

(** The [Map] invariant: keys are distinct. *)
Definition wf (c : MemoryCache) : Prop := NoDup (keys c).

End MemoryCache.

End Cache.

(** * Strings

    [String.prototype.trim], [split('\n')], [join('\n')], [substring],
    [toLowerCase] and the character classes of the regular expressions,
    on code units 0..255. *)

Module Str.

Definition str : Type := list ascii.

Definition lit (s : string) : str := list_ascii_of_string s.

Definition LF : ascii := "010"%char.
Definition DQ : ascii := "034"%char.
Definition SQ : ascii := "039"%char.

Definition cu (c : ascii) : N := N_of_ascii c.

Definition between (lo hi : N) (c : ascii) : bool :=
  ((lo <=? cu c) && (cu c <=? hi))%N.

(** [\s], also the set [trim] strips: TAB, LF, VT, FF, CR, SP, NBSP. *)
Definition is_ws (c : ascii) : bool :=
  between 9 13 c || (cu c =? 32)%N || (cu c =? 160)%N.

(** [\d] *)
Definition is_digit (c : ascii) : bool := between 48 57 c.

(** [\w] *)
Definition is_word (c : ascii) : bool :=
  between 97 122 c || between 65 90 c || is_digit c || (cu c =? 95)%N.

(** [.] without the [s] flag: anything but a line terminator. *)
Definition is_dot (c : ascii) : bool :=
  negb ((cu c =? 10)%N || (cu c =? 13)%N).

(** [[\s\S]] *)
Definition is_any (c : ascii) : bool := is_ws c || negb (is_ws c).

Definition eqc (c : ascii) : ascii -> bool := Ascii.eqb c.

(** Canonicalisation under the [i] flag: a code unit below 128 is mapped
    to its upper case; no other code unit is mapped below 128. *)
Definition upper (c : ascii) : ascii :=
  if between 97 122 c then ascii_of_N (cu c - 32) else c.

Definition is_ci (c : ascii) : ascii -> bool :=
  fun x => Ascii.eqb (upper x) (upper c).

Definition lower (c : ascii) : ascii :=
  if between 65 90 c || between 192 214 c || between 216 222 c
  then ascii_of_N (cu c + 32) else c.

Definition toLowerCase (s : str) : str := map lower s.

Fixpoint drop_ws (s : str) : str :=
  match s with
  | c :: s' => if is_ws c then drop_ws s' else s
  | [] => []
  end.

Definition trim (s : str) : str := rev (drop_ws (rev (drop_ws s))).

Fixpoint split_nl (s : str) : list str :=
  match s with
  | [] => [[]]
  | c :: s' =>
      if Ascii.eqb c LF then [] :: split_nl s'
      else match split_nl s' with
           | l :: ls => (c :: l) :: ls
           | [] => [[c]]
           end
  end.

Fixpoint join_nl (ls : list str) : str :=
  match ls with
  | [] => []
  | [l] => l
  | l :: ls' => l ++ LF :: join_nl ls'
  end.

(** [s.substring(i, j)] for [i <= j]. *)
Definition substring (i j : nat) (s : str) : str := firstn (j - i) (skipn i s).

Definition str_eqb (a b : str) : bool :=
  if list_eq_dec ascii_dec a b then true else false.

(** Decimal rendering of an array index in a template string. *)
Definition of_nat (n : nat) : str :=
  lit (DecimalString.NilEmpty.string_of_uint (Nat.to_uint n)).

End Str.

(** * Regular expressions

    A backtracking matcher with the priorities of the JavaScript one:
    alternatives left to right, greedy quantifiers longest first, lazy ones
    shortest first.  Every quantifier in the patterns of
    [readme-parser.ts] applies to a single character class, so repetition
    is [Rep] on a class; [x+] is [x] followed by [x*], [x?] is [x|()],
    [x{1,n}] is [x] followed by nested [x?]. *)

Module Regex.
Import Str.

Inductive re : Type :=
| Eps
| Cls (p : ascii -> bool)
| Cat (a b : re)
| Alt (a b : re)
| Rep (greedy : bool) (p : ascii -> bool)
| Cap (n : nat) (r : re)
| Bol
| Eol.

(** Captures: group number, start and end offset; the newest is first. *)
Definition caps : Type := list (nat * (nat * nat)).

Section Matcher.

Variable A : Type.

(** A continuation receives the offset, the rest of the input and the
    captures. *)
Definition cont : Type := nat -> str -> caps -> option A.

Fixpoint rep_greedy (p : ascii -> bool) (i : nat) (s : str) (cs : caps)
  (k : cont) : option A :=
  match s with
  | c :: s' =>
      if p c then
        match rep_greedy p (S i) s' cs k with
        | Some x => Some x
        | None => k i s cs
        end
      else k i s cs
  | [] => k i s cs
  end.

Fixpoint rep_lazy (p : ascii -> bool) (i : nat) (s : str) (cs : caps)
  (k : cont) : option A :=
  match k i s cs with
  | Some x => Some x
  | None =>
      match s with
      | c :: s' => if p c then rep_lazy p (S i) s' cs k else None
      | [] => None
      end
  end.

Fixpoint mt (r : re) (i : nat) (s : str) (cs : caps) (k : cont)
  : option A :=
  match r with
  | Eps => k i s cs
  | Cls p =>
      match s with
      | c :: s' => if p c then k (S i) s' cs else None
      | [] => None
      end
  | Cat a b => mt a i s cs (fun j s' cs' => mt b j s' cs' k)
  | Alt a b =>
      match mt a i s cs k with
      | Some x => Some x
      | None => mt b i s cs k
      end
  | Rep g p => if g then rep_greedy p i s cs k else rep_lazy p i s cs k
  | Cap n r' => mt r' i s cs (fun j s' cs' => k j s' ((n, (i, j)) :: cs'))
  | Bol => if (i =? 0)%nat then k i s cs else None
  | Eol => match s with [] => k i s cs | _ :: _ => None end
  end.

End Matcher.

(** A match of [r] that starts at offset [i], where [s] is the input from
    [i] on: the end offset and the captures. *)
Definition match_at (r : re) (i : nat) (s : str) : option (nat * caps) :=
  mt r i s [] (fun j _ cs => Some (j, cs)).

(** The leftmost match at or after offset [i]. *)
Fixpoint search_from (r : re) (i : nat) (s : str)
  : option (nat * nat * caps) :=
  match match_at r i s with
  | Some (j, cs) => Some (i, j, cs)
  | None =>
      match s with
      | [] => None
      | _ :: s' => search_from r (S i) s'
      end
  end.

(** [r.exec(s)] for a pattern without the [g] flag. *)
Definition exec (r : re) (s : str) : option (nat * nat * caps) :=
  search_from r 0 s.

(** [r.test(s)] *)
Definition test (r : re) (s : str) : bool :=
  match exec r s with Some _ => true | None => false end.

(** [s.match(r)[0]] for a pattern without the [g] flag. *)
Definition match0 (r : re) (s : str) : option str :=
  match exec r s with
  | Some (i, j, _) => Some (substring i j s)
  | None => None
  end.

(** The text of capture group [n], when the group took part. *)
Definition group (n : nat) (cs : caps) (s : str) : option str :=
  match find (fun c => (fst c =? n)%nat) cs with
  | Some (_, (i, j)) => Some (substring i j s)
  | None => None
  end.

(** [s.replace(r, repl)] for a pattern without the [g] flag. *)
Definition replace_first (r : re) (repl : str) (s : str) : str :=
  match exec r s with
  | Some (i, j, _) => firstn i s ++ repl ++ skipn j s
  | None => s
  end.

(** [s.replace(r, repl)] for a pattern with the [g] flag; [repl] holds no
    [$].  [skip] counts the code units of the current match still to be
    dropped; after an empty match one code unit is copied. *)
Fixpoint replace_from (r : re) (repl : str) (skip i : nat) (s : str)
  {struct s} : str :=
  match skip with
  | S n =>
      match s with
      | [] => []
      | _ :: s' => replace_from r repl n (S i) s'
      end
  | O =>
      match match_at r i s with
      | Some (j, _) =>
          repl ++
          match s with
          | [] => []
          | c :: s' =>
              if (j =? i)%nat then c :: replace_from r repl 0 (S i) s'
              else replace_from r repl (j - i - 1) (S i) s'
          end
      | None =>
          match s with
          | [] => []
          | c :: s' => c :: replace_from r repl 0 (S i) s'
          end
      end
  end.

Definition replace_all (r : re) (repl : str) (s : str) : str :=
  replace_from r repl 0 0 s.

(** The loop [while ((match = r.exec(s)) !== null)] for a pattern with the
    [g] flag: every match, left to right, each search starting where the
    previous match ended.  A pattern that can match the empty string makes
    the source loop forever; here the scan moves on by one code unit. *)
Fixpoint exec_from (r : re) (skip i : nat) (s : str)
  {struct s} : list (nat * nat * caps) :=
  match skip with
  | S n =>
      match s with
      | [] => []
      | _ :: s' => exec_from r n (S i) s'
      end
  | O =>
      match match_at r i s with
      | Some (j, cs) =>
          (i, j, cs) ::
          match s with
          | [] => []
          | _ :: s' => exec_from r (j - i - 1) (S i) s'
          end
      | None =>
          match s with
          | [] => []
          | _ :: s' => exec_from r 0 (S i) s'
          end
      end
  end.

Definition exec_all (r : re) (s : str) : list (nat * nat * caps) :=
  exec_from r 0 0 s.

(** *** Pattern builders *)

Definition chr (c : ascii) : re := Cls (eqc c).

Fixpoint seq (rs : list re) : re :=
  match rs with
  | [] => Eps
  | [r] => r
  | r :: rs' => Cat r (seq rs')
  end.

Fixpoint alts (rs : list re) : re :=
  match rs with
  | [] => Eps
  | [r] => r
  | r :: rs' => Alt r (alts rs')
  end.

(** A literal, case-sensitive. *)
Definition word (w : string) : re := seq (map chr (lit w)).

(** A literal under the [i] flag. *)
Definition word_ci (w : string) : re :=
  seq (map (fun c => Cls (is_ci c)) (lit w)).

Definition star (p : ascii -> bool) : re := Rep true p.
Definition star_lazy (p : ascii -> bool) : re := Rep false p.
Definition plus (p : ascii -> bool) : re := Cat (Cls p) (Rep true p).
Definition opt (r : re) : re := Alt r Eps.

(** [x{0,n}], greedy. *)
Fixpoint upto (n : nat) (r : re) : re :=
  match n with
  | O => Eps
  | S n' => opt (Cat r (upto n' r))
  end.

(** [x{1,n}], greedy. *)
Definition from1 (n : nat) (r : re) : re := Cat r (upto (n - 1) r).

(** *** What a pattern can consume

    [den r w]: the pattern [r] can consume the string [w] (anchors and
    captures consume nothing).  [req P r]: every string that [r] consumes
    holds a code unit of the class [P]. *)

Fixpoint den (r : re) (w : str) : Prop :=
  match r with
  | Eps => w = []
  | Cls p => exists c, w = [c] /\ p c = true
  | Cat a b => exists w1 w2, w = w1 ++ w2 /\ den a w1 /\ den b w2
  | Alt a b => den a w \/ den b w
  | Rep _ p => Forall (fun c => p c = true) w
  | Cap _ r' => den r' w
  | Bol => w = []
  | Eol => w = []
  end.

Fixpoint req (P : ascii -> bool) (r : re) : Prop :=
  match r with
  | Eps => False
  | Cls p => forall c, p c = true -> P c = true
  | Cat a b => req P a \/ req P b
  | Alt a b => req P a /\ req P b
  | Rep _ _ => False
  | Cap _ r' => req P r'
  | Bol => False
  | Eol => False
  end.

(** No code unit of [s] is in the class [P]. *)
Definition lacks (P : ascii -> bool) (s : str) : Prop :=
  forall c, In c s -> P c = false.

End Regex.

(** * The README parser ([ReadmeParser]) *)

Module ReadmeParser.
Import Str Regex.

(** A JavaScript value as far as the guards of the parser can tell them
    apart. *)
Inductive jsval : Type :=
| JUndefined
| JNull
| JBool (b : bool)
| JNum (z : Z)
| JStr (s : str).

Record UsageExample : Type := mkExample
  { title : str;
    description : option str;
    code : str;
    language : str }.

Record CodeBlock : Type := mkBlock
  { block_code : str;
    block_language : str;
    originalIndex : nat }.

Record InstallationInstructions : Type := mkInstall
  { podfile : option str;
    carthage : option str;
    spm : option str }.

Definition hash_ : re := chr "#".
Definition ws_star : re := star is_ws.
Definition ws_plus : re := plus is_ws.
Definition word_plus : re := plus is_word.

(** [USAGE_SECTION_PATTERNS], all with the [i] flag. *)
Definition USAGE_SECTION_PATTERNS : list re :=
  [ seq [Bol; from1 4 hash_; ws_star;
         Cap 1 (alts [word_ci "usage"; word_ci "how to use";
                      word_ci "getting started"; word_ci "quick start";
                      word_ci "example"; word_ci "examples"])];
    seq [Bol; from1 4 hash_; ws_star;
         Cap 1 (alts [word_ci "installation"; word_ci "install"])];
    seq [Bol; from1 4 hash_; ws_star;
         Cap 1 (alts [word_ci "implementation"; word_ci "integration"])];
    seq [Bol; from1 4 hash_; ws_star;
         Cap 1 (alts [word_ci "setup"; word_ci "configuration"])] ].

(** [/```(\w+)?\s*\n([\s\S]*?)\n```/g] *)
Definition CODE_BLOCK_PATTERN : re :=
  seq [word "```"; opt (Cap 1 word_plus); ws_star; chr LF;
       Cap 2 (star_lazy is_any); chr LF; word "```"].

(** [/^#{1,4}\s/], [/^#{1,4}\s*/] and [/^#{1,6}\s/] *)
Definition HEADING : re := seq [Bol; from1 4 hash_; Cls is_ws].
Definition HEADING_MARK : re := seq [Bol; from1 4 hash_; ws_star].
Definition HEADING6 : re := seq [Bol; from1 6 hash_; Cls is_ws].

Definition dot_re : re := chr ".".
Definition digits : re := plus is_digit.
Definition word_or_ws (c : ascii) : bool := is_word c || is_ws c.

Definition irrelevantPatterns : list re :=
  [ seq [Bol; Cap 1 (alts [word_ci "version"; word_ci "changelog";
                           word_ci "license"; word_ci "copyright"])];
    seq [Bol; digits; dot_re; digits; dot_re; digits];
    seq [Bol; word "http"; opt (chr "s"); word "://"];
    seq [Bol; star word_or_ws; chr ":"; star word_or_ws; Eol];
    seq [Bol; ws_star; hash_; ws_star; word_plus; ws_star; Eol] ].

Definition relevantLanguages : list str :=
  map lit ["swift"; "objc"; "objective-c"; "ruby"; "bash"; "shell";
           "json"; "plist"]%string.

Definition quote (c : ascii) : bool := Ascii.eqb c SQ || Ascii.eqb c DQ.

(** [iosKeywords], each compiled with the [i] flag. *)
Definition iosKeywords : list re :=
  [ seq [word_ci "import"; ws_plus; word_plus];
    seq [word_ci "class"; ws_plus; word_plus];
    seq [word_ci "func"; ws_plus; word_plus];
    seq [word_ci "pod"; ws_plus; Cls quote];
    word_ci "CocoaPods"; word_ci "Podfile"; word_ci "Podspec";
    word_ci "UIKit"; word_ci "Foundation"; word_ci "SwiftUI";
    word_ci "@IBOutlet"; word_ci "@IBAction"; word_ci "@objc";
    word_ci "viewDidLoad";
    seq [word_ci "override"; ws_plus; word_ci "func"] ].

(** [Array.prototype.includes] on strings. *)
Definition includes (l : list str) (x : str) : bool :=
  existsb (str_eqb x) l.

(** Truthiness of a string. *)
Definition truthy (s : str) : bool :=
  match s with [] => false | _ :: _ => true end.

Definition isRelevantCodeBlock (code0 language0 : str) : bool :=
  if negb (truthy code0) || (List.length (trim code0) <? 10)%nat then false
  else if existsb (fun pattern => test pattern (trim code0)) irrelevantPatterns
  then false
  else if truthy language0 && includes relevantLanguages (toLowerCase language0)
  then true
  else
    let hasIosKeywords :=
      existsb (fun keyword => test keyword code0) iosKeywords in
    hasIosKeywords
    || (negb (truthy language0) && (20 <? List.length code0)%nat).

Definition detectLanguage (code0 : str) : str :=
  if test (seq [Bol; ws_star; word "pod"; ws_plus; Cls quote]) code0
  then lit "ruby"
  else if test (alts [seq [word "import"; ws_plus; word_plus];
                      seq [word "func"; ws_plus; word_plus];
                      seq [word "class"; ws_plus; word_plus; star is_dot;
                           chr "{"];
                      seq [word "var"; ws_plus; word_plus];
                      seq [word "let"; ws_plus; word_plus]]) code0
  then lit "swift"
  else if test (alts [word "@interface"; word "@implementation";
                      word "@property"; seq [chr "*"; word_plus];
                      word "#import"]) code0
  then lit "objective-c"
  else if test (alts [seq [chr "$"; ws_star; word_plus]; word "sudo";
                      word "brew"; word "curl";
                      seq [word "git"; ws_plus; word "clone"]]) code0
  then lit "bash"
  else if test (seq [Bol; ws_star; chr "{"; star is_any; chr "}"; ws_star;
                     Eol]) (trim code0)
          && test (seq [Cls quote;
                        plus (fun c => is_word c || Ascii.eqb c "-");
                        Cls quote; ws_star; chr ":"]) code0
  then lit "json"
  else lit "text".

(** The [for (const line of lines)] loop of [extractBlockDescription]. *)
Fixpoint first_description (lines : list str) : option str :=
  match lines with
  | [] => None
  | line :: rest =>
      let trimmed := trim line in
      if truthy trimmed && negb (test HEADING6 trimmed)
         && (10 <? List.length trimmed)%nat
      then Some trimmed
      else first_description rest
  end.

Definition extractBlockDescription (content : str) (blockIndex : nat)
  : option str :=
  let beforeBlock := substring 0 blockIndex content in
  let lines := rev (split_nl beforeBlock) in
  first_description lines.

(** [match[1] || ''] *)
Definition group_or_empty (n : nat) (cs : caps) (s : str) : str :=
  match group n cs s with Some g => g | None => [] end.

Definition extractCodeBlocks (content : str) : list CodeBlock :=
  map (fun m : nat * nat * caps =>
         let '(i, _, cs) := m in
         {| block_code := group_or_empty 2 cs content;
            block_language := group_or_empty 1 cs content;
            originalIndex := i |})
      (exec_all CODE_BLOCK_PATTERN content).

(** [language || detectLanguage(code)] *)
Definition language_of (b : CodeBlock) : str :=
  if truthy (block_language b) then block_language b
  else detectLanguage (block_code b).

Definition example_title (sectionTitle : str) (count index : nat) : str :=
  if (count =? 1)%nat then sectionTitle
  else sectionTitle ++ lit " " ++ of_nat (index + 1).

(** The body of the [forEach((block, index) => ...)] callback: the state
    is the next index and the examples pushed so far. *)
Definition push_block (sectionTitle content : str) (count : nat)
  (st : nat * list UsageExample) (b : CodeBlock) : nat * list UsageExample :=
  let '(index, examples) := st in
  if isRelevantCodeBlock (block_code b) (block_language b)
  then (S index,
        examples ++
        [{| title := example_title sectionTitle count index;
            description := extractBlockDescription content (originalIndex b);
            code := trim (block_code b);
            language := language_of b |}])
  else (S index, examples).

Definition extractCodeBlocksFromSection (sectionTitle content : str)
  : list UsageExample :=
  let codeBlocks := extractCodeBlocks content in
  snd (fold_left (push_block sectionTitle content (List.length codeBlocks))
                 codeBlocks (0, [])).

(** [code.replace(/\s+/g, ' ').trim().toLowerCase()] *)
Definition normalizedCode (e : UsageExample) : str :=
  toLowerCase (trim (replace_all ws_plus (lit " ") (code e))).

Definition hash_of (e : UsageExample) : str :=
  language e ++ lit ":" ++ normalizedCode e.

Definition dedup_step (st : list str * list UsageExample) (e : UsageExample)
  : list str * list UsageExample :=
  let '(seen, unique) := st in
  if includes seen (hash_of e) then (seen, unique)
  else (hash_of e :: seen, unique ++ [e]).

Definition deduplicateExamples (examples : list UsageExample)
  : list UsageExample :=
  snd (fold_left dedup_step examples ([], [])).

(** The state of the line loop of [parseUsageExamples]. *)
Record scan : Type := mkScan
  { examples : list UsageExample;
    currentSection : str;
    isInUsageSection : bool;
    sectionContent : list str }.

Definition flush (st : scan) : list UsageExample :=
  if isInUsageSection st && negb (Nat.eqb (List.length (sectionContent st)) 0)
  then examples st ++
       extractCodeBlocksFromSection (currentSection st)
                                    (join_nl (sectionContent st))
  else examples st.

Definition scan_line (st : scan) (line : str) : scan :=
  if test HEADING line then
    {| examples := flush st;
       currentSection := trim (replace_first HEADING_MARK [] line);
       isInUsageSection :=
         existsb (fun pattern => test pattern line) USAGE_SECTION_PATTERNS;
       sectionContent := [] |}
  else if isInUsageSection st then
    {| examples := examples st;
       currentSection := currentSection st;
       isInUsageSection := isInUsageSection st;
       sectionContent := sectionContent st ++ [line] |}
  else st.

Definition scan_init : scan :=
  {| examples := []; currentSection := []; isInUsageSection := false;
     sectionContent := [] |}.

(** The examples found section by section, before the global fallback. *)
Definition sectionExamples (readme : str) : list UsageExample :=
  flush (fold_left scan_line (split_nl readme) scan_init).

(** [!readme || typeof readme !== 'string'] *)
Definition invalid (readme : jsval) : bool :=
  match readme with
  | JStr s => negb (truthy s)
  | _ => true
  end.

Definition parseUsageExamples (readme : jsval) : list UsageExample :=
  match readme with
  | JStr s =>
      if invalid readme then []
      else
        let examples0 := sectionExamples s in
        let examples1 :=
          if (List.length examples0 =? 0)%nat
          then examples0 ++ extractCodeBlocksFromSection (lit "General Usage") s
          else examples0 in
        deduplicateExamples examples1
  | _ => []
  end.

(** The patterns of [cleanReadmeContent]. *)
Definition BADGE_LINK : re :=
  seq [word "[!["; star_lazy is_dot; word "]("; star_lazy is_dot;
       word ")]("; star_lazy is_dot; chr ")"].
Definition BADGE_SHIELD : re :=
  seq [word "!["; star_lazy is_dot; word "]("; star_lazy is_dot;
       word "shields.io"; star_lazy is_dot; chr ")"].
Definition HTML_COMMENT : re :=
  seq [word "<!--"; star_lazy is_any; word "-->"].
Definition BLANK_LINES : re :=
  seq [chr LF; ws_star; chr LF; ws_star; chr LF].

Definition strip_noise (s : str) : str :=
  replace_all HTML_COMMENT []
    (replace_all BADGE_SHIELD [] (replace_all BADGE_LINK [] s)).

Definition collapse (s : str) : str :=
  replace_all BLANK_LINES [LF; LF] s.

Definition clean_str (s : str) : str := trim (collapse (strip_noise s)).

Definition cleanReadmeContent (readme : jsval) : str :=
  match readme with
  | JStr s => if invalid readme then [] else clean_str s
  | _ => []
  end.

(** The probes of [extractInstallationInstructions]. *)
Definition not_quote (c : ascii) : bool := negb (quote c).
Definition PODFILE : re :=
  seq [word_ci "pod"; ws_plus; Cls quote; plus not_quote; Cls quote].
Definition CARTHAGE : re :=
  seq [word_ci "github"; ws_plus; Cls quote; plus not_quote; chr "/";
       plus not_quote; Cls quote].
Definition SPM : re :=
  seq [word "https://github.com/";
       plus (fun c => negb (is_ws c || Ascii.eqb c ")"))].

(** [readme.match(...)] on a value that is not a string throws: reading a
    property of [null] or [undefined], or calling the missing [match] of a
    boolean or a number. *)
Definition extractInstallationInstructions (readme : jsval)
  : result InstallationInstructions :=
  match readme with
  | JStr s =>
      Ok {| podfile := match0 PODFILE s;
            carthage := match0 CARTHAGE s;
            spm := match0 SPM s |}
  | JUndefined | JNull =>
      Throw (TypeError "Cannot read properties of undefined or null")
  | JBool _ | JNum _ =>
      Throw (TypeError "readme.match is not a function")
  end.

(** *** Vocabulary of the statements *)

(** A line that [extractBlockDescription] accepts as a description. *)
Definition qualifies (line : str) : bool :=
  truthy (trim line) && negb (test HEADING6 (trim line))
  && (10 <? List.length (trim line))%nat.

(** The reading of the specification in which a heading bounds the search
    for a description: the backward scan stops at the first heading. *)
Fixpoint first_description_bounded (lines : list str) : option str :=
  match lines with
  | [] => None
  | line :: rest =>
      if test HEADING6 (trim line) then None
      else if qualifies line then Some (trim line)
      else first_description_bounded rest
  end.

Definition describe_until_heading (content : str) (blockIndex : nat)
  : option str :=
  first_description_bounded (rev (split_nl (substring 0 blockIndex content))).

(** The blocks of a section with their 0-based position. *)
Definition indexed (blocks : list CodeBlock) : list (nat * CodeBlock) :=
  combine (List.seq 0 (List.length blocks)) blocks.

Definition relevant_block (ib : nat * CodeBlock) : bool :=
  isRelevantCodeBlock (block_code (snd ib)) (block_language (snd ib)).

Definition example_at (sectionTitle content : str) (count : nat)
  (ib : nat * CodeBlock) : UsageExample :=
  {| title := example_title sectionTitle count (fst ib);
     description := extractBlockDescription content (originalIndex (snd ib));
     code := trim (block_code (snd ib));
     language := language_of (snd ib) |}.

(** The number of line feeds in the whitespace run that [t] starts with,
    and the length of that run up to and including its last line feed. *)
Fixpoint lf_count (t : str) : nat :=
  match t with
  | c :: t' =>
      if is_ws c then (if Ascii.eqb c LF then 1 else 0) + lf_count t' else 0
  | [] => 0
  end.

Fixpoint lf_cut (t : str) : nat :=
  match t with
  | c :: t' =>
      if is_ws c then
        if (0 <? lf_count t')%nat then S (lf_cut t')
        else if Ascii.eqb c LF then 1 else 0
      else 0
  | [] => 0
  end.

(** No line feed of [s] is followed by whitespace that holds two more line
    feeds: [BLANK_LINES] has nothing to collapse. *)
Fixpoint settled (s : str) : Prop :=
  match s with
  | [] => True
  | c :: s' => (c = LF -> lf_count s' < 2) /\ settled s'
  end.

(** A text given line by line. *)
Definition doc (lines : list string) : str := join_nl (map lit lines).

End ReadmeParser.

(** * Sequences of writes to the cache *)

Module CacheRuns.
Import Cache.

Section Runs.

Variable T : Type.

(** [set] with its two readings of the clock kept apart: [evictOldest]
    reads [t_evict], the new entry is stamped [t_stamp]. *)
Definition set_ticking (key : string) (d : T) (ttl0 : option Z)
  (t_evict t_stamp : Z) (c : MemoryCache T) : MemoryCache T :=
  let c1 := if (maxSize c <=? size c)%Z then evictOldest t_evict c else c in
  let entry := {| data := d; timestamp := t_stamp;
                  ttl := or_default ttl0 (defaultTtl c) |} in
  with_cache c1 (map_set key entry (cache c1)).

(** One call [set(key, data, ttl)] and the two instants it reads: [w_evict]
    in [evictOldest], [w_now] for the timestamp of the entry. *)
Record write : Type := mkWrite
  { w_key : string; w_data : T; w_ttl : option Z; w_evict : Z; w_now : Z }.

Definition apply_write (c : MemoryCache T) (w : write) : MemoryCache T :=
  set_ticking (w_key w) (w_data w) (w_ttl w) (w_evict w) (w_now w) c.

Definition run_sets (ws : list write) (c : MemoryCache T) : MemoryCache T :=
  fold_left apply_write ws c.



End Runs.

End CacheRuns.

(** * More vocabulary for the matcher and the parser *)

Module Shapes.
Import Str Regex ReadmeParser.

(** Every string that [r] consumes consists of code units of class [P]. *)
Fixpoint within (P : ascii -> bool) (r : re) : Prop :=
  match r with
  | Eps => True
  | Cls p => forall c, p c = true -> P c = true
  | Cat a b => within P a /\ within P b
  | Alt a b => within P a /\ within P b
  | Rep _ p => forall c, p c = true -> P c = true
  | Cap _ r' => within P r'
  | Bol => True
  | Eol => True
  end.

(** Every match of [r] runs to the end of the input. *)
Fixpoint ends_anchored (r : re) : Prop :=
  match r with
  | Eol => True
  | Cat _ b => ends_anchored b
  | Alt a b => ends_anchored a /\ ends_anchored b
  | Cap _ r' => ends_anchored r'
  | _ => False
  end.

(** [m] is a contiguous part of [s]. *)
Definition infix (m s : str) : Prop := exists pre post, s = pre ++ m ++ post.

(** The length of the whitespace run that [s] starts with. *)
Fixpoint ws_run (s : str) : nat :=
  match s with
  | c :: s' => if is_ws c then S (ws_run s') else 0
  | [] => 0
  end.

(** Whitespace runs replaced by one space each; [inside] tells that the
    code unit before was whitespace. *)
Fixpoint squash (inside : bool) (s : str) : str :=
  match s with
  | [] => []
  | c :: s' =>
      if is_ws c then
        if inside then squash true s' else " "%char :: squash true s'
      else c :: squash false s'
  end.

(** The only whitespace is single spaces. *)
Fixpoint tidy (s : str) : Prop :=
  match s with
  | [] => True
  | c :: s' =>
      (is_ws c = true ->
       c = " "%char /\
       match s' with d :: _ => is_ws d = false | [] => True end) /\
      tidy s'
  end.

(** What [deduplicateExamples] keeps of [l] once the hashes [seen] have
    been met. *)
Fixpoint keep_first (seen : list str) (l : list UsageExample)
  : list UsageExample :=
  match l with
  | [] => []
  | e :: l' =>
      if includes seen (hash_of e) then keep_first seen l'
      else e :: keep_first (hash_of e :: seen) l'
  end.

(** [c] with a letter [A] to [Z] replaced by its small form, and every
    other code unit kept. *)
Definition small_letter (c : ascii) : ascii :=
  if between 65 90 c then ascii_of_N (cu c + 32) else c.

(** Successive offsets are at least [n] apart. *)
Fixpoint spaced (n : nat) (l : list nat) : Prop :=
  match l with
  | a :: l' =>
      match l' with b :: _ => a + n <= b | [] => True end /\ spaced n l'
  | [] => True
  end.

(** The matches [ms] are matches of [r] in [whole], each at or after the
    offset where the search for it started: [lo] for the first, the end
    of the match before for the others. *)
Fixpoint matches_from (r : re) (whole : str) (lo : nat)
  (ms : list (nat * nat * caps)) : Prop :=
  match ms with
  | [] => True
  | (a, b, cs) :: rest =>
      lo <= a /\
      match_at r a (skipn a whole) = Some (b, cs) /\
      matches_from r whole (if (b =? a)%nat then S a else b) rest
  end.

(** The languages [detectLanguage] can answer. *)
Definition detectedLanguages : list str :=
  map lit ["ruby"; "swift"; "objective-c"; "bash"; "json"; "text"]%string.

End Shapes.

(** * The validators ([utils/validators.ts]) *)

Module Validators.
Import Str Regex ReadmeParser.

(** A validator returns, or throws a [PackageReadmeMcpError] with a
    message and a code. *)
Inductive verdict : Type :=
| Passes
| Rejects (message : str) (code : string).

Definition passes (v : verdict) : bool :=
  match v with Passes => true | Rejects _ _ => false end.

Definition is_alpha (c : ascii) : bool := between 97 122 c || between 65 90 c.

Definition is_pod_char (c : ascii) : bool :=
  is_alpha c || is_digit c || Ascii.eqb c "_" || Ascii.eqb c "-".

(** [/^[a-zA-Z][a-zA-Z0-9_-]*$/] *)
Definition podNameRegex : re := seq [Bol; Cls is_alpha; star is_pod_char; Eol].

Definition validatePodName (name : jsval) : verdict :=
  match name with
  | JStr s =>
      if negb (truthy s) then
        Rejects (lit "Pod name is required and must be a string")
                "INVALID_PACKAGE_NAME"
      else if negb (test podNameRegex s) then
        Rejects (lit ("Invalid pod name format. Pod names must start with a"
                      ++ " letter and contain only letters, numbers,"
                      ++ " underscores, and hyphens"))
                "INVALID_PACKAGE_NAME"
      else if (214 <? List.length s)%nat then
        Rejects (lit "Pod name must be 214 characters or less")
                "INVALID_PACKAGE_NAME"
      else Passes
  | _ =>
      Rejects (lit "Pod name is required and must be a string")
              "INVALID_PACKAGE_NAME"
  end.

Definition is_sign (c : ascii) : bool := Ascii.eqb c "-" || Ascii.eqb c "+".

Definition is_tag_char (c : ascii) : bool :=
  is_alpha c || is_digit c || Ascii.eqb c "." || Ascii.eqb c "-".

(** [/^(\d+)\.(\d+)\.(\d+)(?:[-+][a-zA-Z0-9.-]+)?$/] *)
Definition versionRegex : re :=
  seq [Bol; Cap 1 digits; dot_re; Cap 2 digits; dot_re; Cap 3 digits;
       opt (Cat (Cls is_sign) (plus is_tag_char)); Eol].

(** The code units of an accepted version number. *)
Definition is_version_char (c : ascii) : bool :=
  is_tag_char c || Ascii.eqb c "+".

Definition validateVersion (version : jsval) : verdict :=
  match version with
  | JStr s =>
      if negb (truthy s)
      then Rejects (lit "Version must be a string") "INVALID_VERSION"
      else if str_eqb s (lit "latest") then Passes
      else if negb (test versionRegex s) then
        Rejects (lit "Invalid version format. Expected semantic version (e.g., "
                 ++ DQ :: lit "1.0.0" ++ DQ :: lit ") or "
                 ++ DQ :: lit "latest" ++ [DQ])
                "INVALID_VERSION"
      else Passes
  | _ => Rejects (lit "Version must be a string") "INVALID_VERSION"
  end.

Definition validateSearchQuery (query : jsval) : verdict :=
  match query with
  | JStr s =>
      if negb (truthy s) then
        Rejects (lit "Search query is required and must be a string")
                "INVALID_SEARCH_QUERY"
      else if (List.length (trim s) =? 0)%nat then
        Rejects (lit "Search query cannot be empty") "INVALID_SEARCH_QUERY"
      else if (500 <? List.length s)%nat then
        Rejects (lit "Search query must be 500 characters or less")
                "INVALID_SEARCH_QUERY"
      else Passes
  | _ =>
      Rejects (lit "Search query is required and must be a string")
              "INVALID_SEARCH_QUERY"
  end.

(** The class of the five code units that [sanitizeSearchQuery] removes:
    the angle brackets, the two quotes and the ampersand. *)
Definition is_dangerous (c : ascii) : bool :=
  Ascii.eqb c "<" || Ascii.eqb c ">" || Ascii.eqb c DQ || Ascii.eqb c SQ
  || Ascii.eqb c "&".

Definition sanitizeSearchQuery (query : str) : str :=
  trim (replace_all ws_plus (lit " ")
          (replace_all (Cls is_dangerous) [] query)).

End Validators.

(** * Errors and retries ([types/index.ts], [utils/error-handler.ts]) *)

Module ErrorHandler.

Local Open Scope string_scope.

(** The class of a thrown value: one of the error classes of
    [types/index.ts], all of which extend [PackageReadmeMcpError], or
    anything else. *)
Inductive error_class : Type :=
| OtherValue
| McpError
| PackageNotFound
| VersionNotFound
| RateLimit
| Network.

Inductive detail : Type :=
| NoDetail
| RetryAfter (seconds : option Z)
| OriginalError.

Record js_error : Type := mkError
  { cls : error_class;
    message : string;
    code : string;
    statusCode : option nat;
    details : detail }.

(** [e instanceof PackageReadmeMcpError], [e instanceof NetworkError] *)
Definition is_mcp (e : js_error) : bool :=
  match cls e with OtherValue => false | _ => true end.

Definition is_network (e : js_error) : bool :=
  match cls e with Network => true | _ => false end.

Definition PackageNotFoundError (packageName : string) : js_error :=
  {| cls := PackageNotFound;
     message := "Pod '" ++ packageName ++ "' not found";
     code := "PACKAGE_NOT_FOUND"; statusCode := Some 404;
     details := NoDetail |}.

Definition VersionNotFoundError (packageName version : string) : js_error :=
  {| cls := VersionNotFound;
     message := "Version '" ++ version ++ "' of pod '" ++ packageName
                ++ "' not found";
     code := "VERSION_NOT_FOUND"; statusCode := Some 404;
     details := NoDetail |}.

Definition RateLimitError (service : string) (retryAfter : option Z)
  : js_error :=
  {| cls := RateLimit;
     message := "Rate limit exceeded for " ++ service;
     code := "RATE_LIMIT_EXCEEDED"; statusCode := Some 429;
     details := RetryAfter retryAfter |}.

Definition NetworkError (msg : string) (originalError : bool) : js_error :=
  {| cls := Network;
     message := "Network error: " ++ msg;
     code := "NETWORK_ERROR"; statusCode := None;
     details := if originalError then OriginalError else NoDetail |}.

(** A number as the field [maxRetries] can hold it: an integer of either
    sign or [NaN].  Fractions and the infinities are left out. *)
Inductive number : Type :=
| Integer (z : Z)
| NaN.

Record RetryConfig : Type := mkRetryConfig
  { maxRetries : number;
    baseDelay : Z;
    maxDelay : Z;
    retryableStatusCodes : list nat }.

Definition DEFAULT_RETRY_CONFIG : RetryConfig :=
  {| maxRetries := Integer 3; baseDelay := 1000; maxDelay := 10000;
     retryableStatusCodes := [429; 500; 502; 503; 504] |}.

Definition includes_code (l : list nat) (n : nat) : bool :=
  existsb (Nat.eqb n) l.

Definition isRetryableError (error : js_error) : bool :=
  if is_mcp error then
    match statusCode error with
    | Some n => includes_code (retryableStatusCodes DEFAULT_RETRY_CONFIG) n
    | None => false
    end
  else if is_network error then true
  else false.

Definition createNetworkError (msg : string) (originalError : bool)
  : js_error := NetworkError msg originalError.

Definition createRateLimitError (service : string) (retryAfter : option Z)
  : js_error := RateLimitError service retryAfter.

(** The part of a [Response] that [handleHttpError] reads. *)
Record Response : Type := mkResponse
  { status : nat;
    statusText : string;
    retry_after : option string }.

Definition dec (n : nat) : string :=
  DecimalString.NilEmpty.string_of_uint (Nat.to_uint n).

Section Http.

(** [parseInt(s, 10)]; [None] stands for [NaN], which is not told apart
    from [undefined] here. *)
Variable parseInt : string -> option Z.

Definition handleHttpError (response : Response) (context : string)
  : js_error :=
  let msg := "HTTP " ++ dec (status response) ++ " " ++ statusText response
             ++ " while " ++ context in
  if (status response =? 429)%nat then
    let retryAfterSeconds :=
      match retry_after response with
      | Some h => if Cache.truthy h then parseInt h else None
      | None => None
      end in
    createRateLimitError context retryAfterSeconds
  else if (500 <=? status response)%nat then createNetworkError msg false
  else NetworkError msg false.

End Http.

(** *** [withRetry]

    The operation is a function of the number of the attempt; the waits
    between attempts are left out.  The result tells what the call
    returned or threw and how often the operation ran. *)

Inductive attempt_result (A : Type) : Type :=
| Resolved (a : A)
| Failed (e : js_error).

Arguments Resolved {A} a.
Arguments Failed {A} e.

Inductive outcome (A : Type) : Type :=
| Returned (a : A)
| Thrown (e : option js_error).

Arguments Returned {A} a.
Arguments Thrown {A} e.

(** How many values [attempt = 1, 2, ...] pass the loop test
    [attempt <= maxRetries + 1]: none for a negative [maxRetries], and
    none for [NaN], with which every comparison is false. *)
Definition iterations (maxRetries0 : number) : nat :=
  match maxRetries0 with
  | Integer z => Z.to_nat (z + 1)
  | NaN => 0
  end.

(** [attempt > maxRetries] *)
Definition exceeds (attempt : nat) (maxRetries0 : number) : bool :=
  match maxRetries0 with
  | Integer z => (z <? Z.of_nat attempt)%Z
  | NaN => false
  end.

Section Retry.

Variable A : Type.
Variable operation : nat -> attempt_result A.

(** The loop [for (attempt = 1; attempt <= maxRetries + 1; attempt++)];
    [left] counts the iterations still allowed.  When the loop ends
    without a [return] or a [throw] in its body, [lastError] is thrown:
    it is still [undefined] if the body never ran. *)
Fixpoint retry_loop (maxRetries0 : number) (left attempt : nat)
  (lastError : option js_error) : outcome A * nat :=
  match left with
  | O => (Thrown lastError, attempt - 1)
  | S left' =>
      match operation attempt with
      | Resolved a => (Returned a, attempt)
      | Failed error =>
          if exceeds attempt maxRetries0 then (Thrown (Some error), attempt)
          else if negb (isRetryableError error)
          then (Thrown (Some error), attempt)
          else retry_loop maxRetries0 left' (S attempt) (Some error)
      end
  end.

Definition withRetry (config : RetryConfig) : outcome A * nat :=
  retry_loop (maxRetries config) (iterations (maxRetries config)) 1 None.

End Retry.

End ErrorHandler.

(** * Properties of the matcher *)

Module RegexFacts.
Import Str Regex.

Section Soundness.

Variable A : Type.

Implicit Types (k : cont A) (s w : str) (cs : caps) (r : re).

Lemma rep_greedy_sound p k s : forall i cs x,
  rep_greedy p i s cs k = Some x ->
  exists w s', s = w ++ s' /\ Forall (fun c => p c = true) w /\
               k (i + List.length w) s' cs = Some x.
Proof.
  induction s as [|c s IH]; intros i cs x H; simpl in H.
  - exists [], []. rewrite Nat.add_0_r. auto.
  - destruct (p c) eqn:Hp.
    + destruct (rep_greedy p (S i) s cs k) as [y|] eqn:Hr.
      * injection H as ->. destruct (IH _ _ _ Hr) as (w & s' & -> & Hw & Hk).
        exists (c :: w), s'. simpl. rewrite Nat.add_succ_r. auto.
      * exists [], (c :: s). rewrite Nat.add_0_r. auto.
    + exists [], (c :: s). rewrite Nat.add_0_r. auto.
Qed.

Lemma rep_lazy_sound p k s : forall i cs x,
  rep_lazy p i s cs k = Some x ->
  exists w s', s = w ++ s' /\ Forall (fun c => p c = true) w /\
               k (i + List.length w) s' cs = Some x.
Proof.
  induction s as [|c s IH]; intros i cs x H; simpl in H.
  - destruct (k i [] cs) eqn:Hk; [|discriminate].
    exists [], []. rewrite Nat.add_0_r. injection H as ->. auto.
  - destruct (k i (c :: s) cs) eqn:Hk.
    + exists [], (c :: s). rewrite Nat.add_0_r. injection H as ->. auto.
    + destruct (p c) eqn:Hp; [|discriminate].
      destruct (IH _ _ _ H) as (w & s' & -> & Hw & Hk').
      exists (c :: w), s'. simpl. rewrite Nat.add_succ_r. auto.
Qed.

(** Whatever the matcher accepts, it passes to its continuation the rest
    of the input after a string the pattern denotes. *)
Lemma mt_sound r : forall i s cs k x,
  mt r i s cs k = Some x ->
  exists w s' cs', s = w ++ s' /\ den r w /\
                   k (i + List.length w) s' cs' = Some x.
Proof.
  induction r as [|p|a IHa b IHb|a IHa b IHb|g p|n r IH| |];
    intros i s cs k x H; simpl in H.
  - exists [], s, cs. rewrite Nat.add_0_r. simpl. auto.
  - destruct s as [|c s]; [discriminate|].
    destruct (p c) eqn:Hp; [|discriminate].
    exists [c], s, cs. simpl. rewrite Nat.add_1_r. eauto.
  - destruct (IHa _ _ _ _ _ H) as (w1 & s1 & cs1 & -> & D1 & H1).
    destruct (IHb _ _ _ _ _ H1) as (w2 & s2 & cs2 & -> & D2 & H2).
    exists (w1 ++ w2), s2, cs2. rewrite length_app, Nat.add_assoc, <- app_assoc.
    simpl. eauto 7.
  - destruct (mt a i s cs k) as [y|] eqn:Ha.
    + injection H as ->.
      destruct (IHa _ _ _ _ _ Ha) as (w & s' & cs' & ? & ? & ?).
      exists w, s', cs'. simpl. auto.
    + destruct (IHb _ _ _ _ _ H) as (w & s' & cs' & ? & ? & ?).
      exists w, s', cs'. simpl. auto.
  - destruct g.
    + destruct (rep_greedy_sound _ _ _ _ _ H) as (w & s' & ? & ? & ?).
      exists w, s', cs. simpl. auto.
    + destruct (rep_lazy_sound _ _ _ _ _ H) as (w & s' & ? & ? & ?).
      exists w, s', cs. simpl. auto.
  - destruct (IH _ _ _ _ _ H) as (w & s' & cs' & ? & ? & ?).
    exists w, s', ((n, (i, i + List.length w)) :: cs'). simpl. auto.
  - destruct (i =? 0)%nat; [|discriminate].
    exists [], s, cs. rewrite Nat.add_0_r. simpl. auto.
  - destruct s; [|discriminate].
    exists [], [], cs. rewrite Nat.add_0_r. simpl. auto.
Qed.

End Soundness.

Lemma match_at_sound r i s j cs :
  match_at r i s = Some (j, cs) ->
  exists w s', s = w ++ s' /\ den r w /\ j = i + List.length w.
Proof.
  intros H. apply mt_sound in H.
  destruct H as (w & s' & cs' & -> & D & [= <- _]). eauto.
Qed.

Lemma search_from_sound r s : forall i a b cs,
  search_from r i s = Some (a, b, cs) ->
  exists pre w post,
    s = pre ++ w ++ post /\ den r w /\
    a = i + List.length pre /\ b = a + List.length w.
Proof.
  induction s as [|c s IH]; intros i a b cs H; simpl in H.
  - destruct (match_at r i []) as [[j cs']|] eqn:M; [|discriminate].
    injection H as <- <- <-.
    destruct (match_at_sound _ _ _ M) as (w & s' & E & D & ->).
    exists [], w, s'. simpl. rewrite Nat.add_0_r. auto.
  - destruct (match_at r i (c :: s)) as [[j cs']|] eqn:M.
    + injection H as <- <- <-.
      destruct (match_at_sound _ _ _ M) as (w & s' & E & D & ->).
      exists [], w, s'. simpl. rewrite Nat.add_0_r. auto.
    + destruct (IH _ _ _ _ H) as (pre & w & post & -> & D & -> & ->).
      exists (c :: pre), w, post. simpl. rewrite Nat.add_succ_r. auto.
Qed.

Lemma den_req P r : forall w,
  req P r -> den r w -> exists c, In c w /\ P c = true.
Proof.
  induction r as [|p|a IHa b IHb|a IHa b IHb|g p|n r IH| |];
    intros w R D; simpl in *; try tauto.
  - destruct D as (c & -> & Hc). exists c. simpl. auto.
  - destruct D as (w1 & w2 & -> & D1 & D2).
    destruct R as [R|R].
    + destruct (IHa _ R D1) as (c & Hin & Hc). exists c.
      split; [apply in_or_app; auto|assumption].
    + destruct (IHb _ R D2) as (c & Hin & Hc). exists c.
      split; [apply in_or_app; auto|assumption].
  - destruct R as [Ra Rb]. destruct D; auto.
  - auto.
Qed.

(** A pattern that needs a code unit of a class the input lacks does not
    match anywhere. *)
Lemma match_at_lacks P r i s :
  req P r -> lacks P s -> match_at r i s = None.
Proof.
  intros R L. destruct (match_at r i s) as [[j cs]|] eqn:M; [|reflexivity].
  destruct (match_at_sound _ _ _ M) as (w & s' & -> & D & _).
  destruct (@den_req P r w R D) as (c & Hin & Hc).
  rewrite (L c) in Hc; [discriminate|]. apply in_or_app. auto.
Qed.

Lemma lacks_tail P c s : lacks P (c :: s) -> lacks P s.
Proof. intros L x Hx. apply L. now right. Qed.

Lemma search_from_lacks P r s : forall i,
  req P r -> lacks P s -> search_from r i s = None.
Proof.
  induction s as [|c s IH]; intros i R L; simpl;
    rewrite (@match_at_lacks P r i _ R L); [reflexivity|].
  apply IH; [assumption|]. eapply lacks_tail; eassumption.
Qed.

Lemma test_lacks P r s : req P r -> lacks P s -> test r s = false.
Proof.
  intros R L. unfold test, exec. now rewrite (@search_from_lacks P r s 0 R L).
Qed.

Lemma match0_lacks P r s : req P r -> lacks P s -> match0 r s = None.
Proof.
  intros R L. unfold match0, exec. now rewrite (@search_from_lacks P r s 0 R L).
Qed.

Lemma replace_from_lacks P r repl s : forall i,
  req P r -> lacks P s -> replace_from r repl 0 i s = s.
Proof.
  induction s as [|c s IH]; intros i R L; simpl;
    rewrite (@match_at_lacks P r i _ R L); [reflexivity|].
  f_equal. apply IH; [assumption|]. eapply lacks_tail; eassumption.
Qed.

Lemma replace_all_lacks P r repl s :
  req P r -> lacks P s -> replace_all r repl s = s.
Proof. intros. unfold replace_all. eapply replace_from_lacks; eassumption. Qed.

End RegexFacts.

(** * Properties of the cache *)

Module CacheFacts.
Import Cache.

Section Facts.

Variable T : Type.

Local Abbreviation entry := (CacheEntry T).
Local Abbreviation mcache := (MemoryCache T).
Local Abbreviation store := (Cache.store T).

Implicit Types (m : store) (c : mcache) (k key : string) (e : entry).

Lemma map_get_In m k e : map_get k m = Some e -> In (k, e) m.
Proof.
  induction m as [|[k' e'] m IH]; simpl; [discriminate|].
  destruct (String.eqb k k') eqn:E.
  - apply String.eqb_eq in E. intros [= ->]. subst. now left.
  - intros H. right. auto.
Qed.

Lemma map_get_None m k : map_get k m = None <-> ~ In k (map_keys m).
Proof.
  induction m as [|[k' e'] m IH]; simpl.
  - tauto.
  - destruct (String.eqb k k') eqn:E.
    + apply String.eqb_eq in E. subst. split; [discriminate|tauto].
    + apply String.eqb_neq in E. rewrite IH. split.
      * intros H [H1|H1]; [congruence|tauto].
      * tauto.
Qed.

Lemma map_get_set_same m k e : map_get k (map_set k e m) = Some e.
Proof.
  induction m as [|[k' e'] m IH]; simpl.
  - now rewrite String.eqb_refl.
  - destruct (String.eqb k k') eqn:E; simpl.
    + now rewrite String.eqb_refl.
    + now rewrite E.
Qed.

Lemma map_set_fresh m k e :
  map_get k m = None -> map_set k e m = m ++ [(k, e)].
Proof.
  induction m as [|[k' e'] m IH]; simpl; [reflexivity|].
  destruct (String.eqb k k'); [discriminate|].
  intros H. now rewrite IH.
Qed.

Lemma map_keys_set m k e :
  map_keys (map_set k e m) =
  if map_has k m then map_keys m else map_keys m ++ [k].
Proof.
  unfold map_has.
  induction m as [|[k' e'] m IH]; simpl; [reflexivity|].
  destruct (String.eqb k k') eqn:E; simpl.
  - apply String.eqb_eq in E. now subst.
  - rewrite IH. now destruct (map_get k m).
Qed.

Lemma map_delete_length m k e :
  map_get k m = Some e -> S (List.length (map_delete k m)) = List.length m.
Proof.
  induction m as [|[k' e'] m IH]; simpl; [discriminate|].
  destruct (String.eqb k k'); simpl; auto.
Qed.

Lemma map_delete_keys_incl m k x :
  In x (map_keys (map_delete k m)) -> In x (map_keys m).
Proof.
  induction m as [|[k' e'] m IH]; simpl; [tauto|].
  destruct (String.eqb k k'); simpl; tauto.
Qed.

Lemma map_delete_NoDup m k :
  NoDup (map_keys m) -> NoDup (map_keys (map_delete k m)).
Proof.
  induction m as [|[k' e'] m IH]; simpl; [auto|].
  intros H. inversion H as [|? ? Hn Hd]; subst.
  destruct (String.eqb k k'); simpl; [assumption|].
  constructor; [|auto].
  intros Hin. apply Hn. eapply map_delete_keys_incl; eassumption.
Qed.

Lemma map_get_delete_same m k :
  NoDup (map_keys m) -> map_get k (map_delete k m) = None.
Proof.
  induction m as [|[k' e'] m IH]; simpl; [reflexivity|].
  intros H. inversion H as [|? ? Hn Hd]; subst.
  destruct (String.eqb k k') eqn:E; simpl.
  - apply String.eqb_eq in E. subst. now apply map_get_None.
  - rewrite E. auto.
Qed.

Lemma map_get_delete_other m k k' :
  k' <> k -> map_get k' (map_delete k m) = map_get k' m.
Proof.
  intros Hne.
  induction m as [|[k0 e0] m IH]; simpl; [reflexivity|].
  destruct (String.eqb k k0) eqn:E; simpl.
  - apply String.eqb_eq in E. subst.
    destruct (String.eqb k' k0) eqn:E'; [|reflexivity].
    apply String.eqb_eq in E'. congruence.
  - now rewrite IH.
Qed.

Lemma map_delete_middle m1 m2 k e :
  ~ In k (map_keys m1) -> map_delete k (m1 ++ (k, e) :: m2) = m1 ++ m2.
Proof.
  induction m1 as [|[k' e'] m1 IH]; simpl.
  - now rewrite String.eqb_refl.
  - intros H. destruct (String.eqb k k') eqn:E.
    + apply String.eqb_eq in E. symmetry in E. tauto.
    + rewrite IH; tauto.
Qed.

Lemma map_set_NoDup m k e :
  NoDup (map_keys m) -> NoDup (map_keys (map_set k e m)).
Proof.
  intros H. rewrite map_keys_set. unfold map_has.
  destruct (map_get k m) eqn:G; [assumption|].
  apply map_get_None in G.
  apply NoDup_app; [assumption|repeat constructor; simpl; tauto|].
  intros x Hx [Hk|[]]. subst. tauto.
Qed.

(** The representation invariant holds initially and is kept. *)

Lemma wf_constructor options c : constructor T options = Ok c -> wf c.
Proof. intros [= <-]. constructor. Qed.

Lemma wf_evictOldest now c : wf c -> wf (evictOldest now c).
Proof.
  unfold evictOldest, wf, keys. intros H.
  destruct (fst (oldest_scan now (cache c))) as [k|]; [|assumption].
  destruct (truthy k); [|assumption].
  simpl. now apply map_delete_NoDup.
Qed.

Lemma wf_set key d t now c : wf c -> wf (set key d t now c).
Proof.
  intros H. unfold set, wf, keys. simpl.
  apply map_set_NoDup.
  destruct (maxSize c <=? size c)%Z; [|assumption].
  now apply wf_evictOldest.
Qed.

Lemma wf_get key now c : wf c -> wf (fst (get key now c)).
Proof.
  intros H. unfold get.
  destruct (map_get key (cache c)) as [e|]; [|assumption].
  destruct (timestamp e + ttl e <? now)%Z; [|assumption].
  now apply map_delete_NoDup.
Qed.

(** *** Reads *)

Lemma get_live c key e now :
  map_get key (cache c) = Some e ->
  (now <= timestamp e + ttl e)%Z ->
  get key now c = (c, Some (data e)).
Proof.
  intros G H. unfold get. rewrite G.
  destruct (Z.ltb_spec (timestamp e + ttl e) now); [lia|reflexivity].
Qed.

Lemma has_live c key e now :
  map_get key (cache c) = Some e ->
  (now <= timestamp e + ttl e)%Z ->
  has key now c = (c, true).
Proof.
  intros G H. unfold has. rewrite G.
  destruct (Z.ltb_spec (timestamp e + ttl e) now); [lia|reflexivity].
Qed.

Lemma get_stale c key e now :
  map_get key (cache c) = Some e ->
  (timestamp e + ttl e < now)%Z ->
  get key now c = (with_cache c (map_delete key (cache c)), None).
Proof.
  intros G H. unfold get. rewrite G.
  destruct (Z.ltb_spec (timestamp e + ttl e) now); [reflexivity|lia].
Qed.

Lemma has_stale c key e now :
  map_get key (cache c) = Some e ->
  (timestamp e + ttl e < now)%Z ->
  has key now c = (with_cache c (map_delete key (cache c)), false).
Proof.
  intros G H. unfold has. rewrite G.
  destruct (Z.ltb_spec (timestamp e + ttl e) now); [reflexivity|lia].
Qed.

(** A read leaves every entry it does not delete as it was stored. *)
Lemma get_frame c key now k e :
  wf c ->
  map_get k (cache (fst (get key now c))) = Some e ->
  map_get k (cache c) = Some e.
Proof.
  intros W. unfold get.
  destruct (map_get key (cache c)) as [e0|] eqn:G; [|auto].
  destruct (timestamp e0 + ttl e0 <? now)%Z; [|auto].
  simpl. destruct (string_dec k key) as [->|Hne].
  - now rewrite map_get_delete_same.
  - now rewrite map_get_delete_other.
Qed.

Lemma has_frame c key now k e :
  wf c ->
  map_get k (cache (fst (has key now c))) = Some e ->
  map_get k (cache c) = Some e.
Proof.
  intros W. unfold has.
  destruct (map_get key (cache c)) as [e0|] eqn:G; [|auto].
  destruct (timestamp e0 + ttl e0 <? now)%Z; [|auto].
  simpl. destruct (string_dec k key) as [->|Hne].
  - now rewrite map_get_delete_same.
  - now rewrite map_get_delete_other.
Qed.

Lemma reads_live c key e ops :
  map_get key (cache c) = Some e ->
  Forall (fun op : read * Z => (snd op <= timestamp e + ttl e)%Z) ops ->
  reads key ops c = c.
Proof.
  intros G H. unfold reads.
  induction H as [|[o t] ops Ht _ IH]; simpl; [reflexivity|].
  replace (read_once key (o, t) c) with c; [exact IH|].
  unfold read_once. simpl in *.
  destruct o; [rewrite (get_live c key G Ht)|rewrite (has_live c key G Ht)];
    reflexivity.
Qed.

(** *** Eviction *)

Lemma oldest_scan_acc m (acc : option string * Z) :
  (fold_left (@oldest_step T) m acc = acc /\
   Forall (fun x => (snd acc <= timestamp (snd x))%Z) m) \/
  (exists m1 k e m2,
      m = m1 ++ (k, e) :: m2 /\
      fold_left (@oldest_step T) m acc = (Some k, timestamp e) /\
      (timestamp e < snd acc)%Z /\
      Forall (fun x => (timestamp e < timestamp (snd x))%Z) m1 /\
      Forall (fun x => (timestamp e <= timestamp (snd x))%Z) m2).
Proof.
  revert acc.
  induction m as [|[k0 e0] m IH]; intros acc; simpl.
  - left. split; [reflexivity|constructor].
  - replace (oldest_step acc (k0, e0))
      with (if (timestamp e0 <? snd acc)%Z then (Some k0, timestamp e0)
            else acc) by reflexivity.
    destruct (Z.ltb_spec (timestamp e0) (snd acc)) as [Hlt|Hge].
    + destruct (IH (Some k0, timestamp e0))
        as [[Hr Hall]|(m1&k&e&m2&Hm&Hr&Ht&H1&H2)].
      * right. exists [], k0, e0, m. simpl in *.
        split; [reflexivity|]. split; [assumption|]. split; [assumption|].
        split; [constructor|assumption].
      * right. exists ((k0, e0) :: m1), k, e, m2. simpl in *. subst m.
        split; [reflexivity|]. split; [assumption|]. split; [lia|].
        split; [|assumption]. constructor; [simpl; lia|assumption].
    + destruct (IH acc) as [[Hr Hall]|(m1&k&e&m2&Hm&Hr&Ht&H1&H2)].
      * left. split; [assumption|]. constructor; [simpl; lia|assumption].
      * right. exists ((k0, e0) :: m1), k, e, m2. subst m.
        split; [reflexivity|]. split; [assumption|]. split; [assumption|].
        split; [|assumption]. constructor; [simpl; lia|assumption].
Qed.

(** What [set] does on a full cache when the key is new, some entry is
    strictly older than [now] and no key is the empty string: the first
    entry of smallest timestamp goes, the new entry is appended, the size
    is unchanged. *)
Lemma set_at_capacity_evicts_oldest c key d t now :
  wf c ->
  size c = maxSize c ->
  map_get key (cache c) = None ->
  Exists (fun x => (timestamp (snd x) < now)%Z) (cache c) ->
  Forall (fun x => truthy (fst x) = true) (cache c) ->
  exists m1 k e m2,
    cache c = m1 ++ (k, e) :: m2 /\
    Forall (fun x => (timestamp e < timestamp (snd x))%Z) m1 /\
    Forall (fun x => (timestamp e <= timestamp (snd x))%Z) m2 /\
    cache (set key d t now c) =
      m1 ++ m2 ++
      [(key, {| data := d; timestamp := now;
                ttl := or_default t (defaultTtl c) |})] /\
    size (set key d t now c) = maxSize c.
Proof.
  intros W Hsz Hfresh Hex Htr.
  destruct (oldest_scan_acc (cache c) (None, now))
    as [[_ Hall]|(m1&k&e&m2&Hm&Hr&Ht&H1&H2)].
  - exfalso. apply Exists_exists in Hex. destruct Hex as (x&Hin&Hx).
    rewrite Forall_forall in Hall. specialize (Hall x Hin). simpl in Hall. lia.
  - exists m1, k, e, m2.
    assert (Hk : truthy k = true).
    { rewrite Forall_forall in Htr. apply (Htr (k, e)).
      rewrite Hm. apply in_or_app. right. now left. }
    assert (Hnin : ~ In k (map_keys m1)).
    { unfold wf, keys, map_keys in W. rewrite Hm, map_app in W. simpl in W.
      apply NoDup_remove_2 in W. intros Hin. apply W.
      apply in_or_app. now left. }
    assert (Hev : cache (evictOldest now c) = m1 ++ m2).
    { unfold evictOldest, oldest_scan. rewrite Hr. simpl. rewrite Hk. simpl.
      rewrite Hm. now apply map_delete_middle. }
    assert (Hc : cache (set key d t now c) =
                 m1 ++ m2 ++ [(key, {| data := d; timestamp := now;
                                       ttl := or_default t (defaultTtl c) |})]).
    { unfold set. rewrite Hsz, Z.leb_refl. simpl. rewrite Hev.
      rewrite map_set_fresh; [now rewrite <- app_assoc|].
      apply map_get_None. rewrite map_get_None in Hfresh.
      intros Hin. apply Hfresh. rewrite Hm. unfold map_keys in *.
      rewrite map_app in *. simpl. apply in_app_or in Hin.
      apply in_or_app. destruct Hin; [now left|right; now right]. }
    repeat split; try assumption.
    rewrite <- Hsz. unfold size. rewrite Hc, Hm.
    repeat (rewrite length_app; simpl). lia.
Qed.

(** With a negative [maxSize] every [set] runs the eviction first. *)
Lemma negative_maxSize_always_evicts c key d t now :
  (maxSize c < 0)%Z ->
  set key d t now c =
  with_cache (evictOldest now c)
    (map_set key {| data := d; timestamp := now;
                    ttl := or_default t (defaultTtl c) |}
             (cache (evictOldest now c))).
Proof.
  intros H. unfold set.
  destruct (Z.leb_spec (maxSize c) (size c)) as [_|Hlt]; [reflexivity|].
  unfold size in Hlt. lia.
Qed.

(** C2, as amended.  Constructing the cache with a non-positive [maxSize]
    does not fail: the constructor returns an empty cache; a [maxSize] of
    0 is replaced by the default 1000 and a negative [maxSize] is stored
    as given. *)
Theorem constructor_nonpositive_maxSize (t : option Z) (m : Z) :
  (m <= 0)%Z ->
  exists c,
    constructor T {| opt_ttl := t; opt_maxSize := Some m |} = Ok c /\
    cache c = [] /\
    defaultTtl c = or_default t 3600000 /\
    maxSize c = (if (m =? 0)%Z then 1000 else m)%Z.
Proof.
  intros _. eexists. split; [reflexivity|]. repeat split.
Qed.

(** C5.  After [set(k, v, 50)] at instant [t0], at every instant [now]
    with [t0 + 50 < now], [get(k)] returns null and [has(k)] returns false,
    asked first or asked after the other; the first read deletes the stale
    entry, so that [k] is no longer stored and [size()] is one less than
    before the read. *)
Theorem set_then_expired_read c k (v : T) (t0 now : Z) :
  wf c ->
  (t0 + 50 < now)%Z ->
  let c1 := set k v (Some 50%Z) t0 c in
  let c2 := with_cache c1 (map_delete k (cache c1)) in
  get k now c1 = (c2, None) /\
  has k now c1 = (c2, false) /\
  get k now c2 = (c2, None) /\
  has k now c2 = (c2, false) /\
  map_get k (cache c2) = None /\
  ~ In k (keys c2) /\
  size c2 = (size c1 - 1)%Z.
Proof.
  intros W H c1 c2.
  assert (G : map_get k (cache c1) =
              Some {| data := v; timestamp := t0; ttl := 50 |}).
  { unfold c1, set. simpl. apply map_get_set_same. }
  assert (W1 : wf c1) by (apply wf_set; assumption).
  assert (N : map_get k (cache c2) = None).
  { unfold c2. simpl. now apply map_get_delete_same. }
  split; [apply (get_stale c1 k G); simpl; lia|].
  split; [apply (has_stale c1 k G); simpl; lia|].
  split; [unfold get; now rewrite N|].
  split; [unfold has; now rewrite N|].
  split; [assumption|].
  split; [now apply map_get_None|].
  pose proof (map_delete_length _ _ G) as L.
  unfold size. change (cache c2) with (map_delete k (cache c1)). lia.
Qed.

Lemma get_other c key now k :
  k <> key ->
  map_get k (cache (fst (get key now c))) = map_get k (cache c).
Proof.
  intros Hne. unfold get.
  destruct (map_get key (cache c)) as [e0|]; [|reflexivity].
  destruct (timestamp e0 + ttl e0 <? now)%Z; [|reflexivity].
  simpl. now apply map_get_delete_other.
Qed.

Lemma has_other c key now k :
  k <> key ->
  map_get k (cache (fst (has key now c))) = map_get k (cache c).
Proof.
  intros Hne. unfold has.
  destruct (map_get key (cache c)) as [e0|]; [|reflexivity].
  destruct (timestamp e0 + ttl e0 <? now)%Z; [|reflexivity].
  simpl. now apply map_get_delete_other.
Qed.

(** C6.  A [get] or [has] never changes a stored entry: a read of any key
    leaves the entries under all other keys as they are, and whatever is
    stored under any key after the read was stored under that key, with
    the same data, timestamp and ttl, before it.  Reading an unexpired
    entry any number of times, by [get] or by [has], leaves the whole
    cache as it was, so the entry that [evictOldest] selects, and the
    result of a following [set], are the same as without the reads. *)
Theorem reads_never_refresh c key e (ops : list (read * Z)) :
  wf c ->
  map_get key (cache c) = Some e ->
  Forall (fun op : read * Z => (snd op <= timestamp e + ttl e)%Z) ops ->
  (forall k now k',
      k' <> k ->
      map_get k' (cache (fst (get k now c))) = map_get k' (cache c) /\
      map_get k' (cache (fst (has k now c))) = map_get k' (cache c)) /\
  (forall k now k' e',
      (map_get k' (cache (fst (get k now c))) = Some e' ->
       map_get k' (cache c) = Some e') /\
      (map_get k' (cache (fst (has k now c))) = Some e' ->
       map_get k' (cache c) = Some e')) /\
  reads key ops c = c /\
  map_get key (cache (reads key ops c)) = Some e /\
  (forall now, oldest_scan now (cache (reads key ops c)) =
               oldest_scan now (cache c)) /\
  (forall now, evictOldest now (reads key ops c) = evictOldest now c) /\
  (forall k' d t now, set k' d t now (reads key ops c) = set k' d t now c).
Proof.
  intros W G H.
  split.
  { intros k now k' Hne. split; [now apply get_other|now apply has_other]. }
  split.
  { intros k now k' e'. split; [apply get_frame|apply has_frame]; assumption. }
  rewrite (reads_live c key G H). repeat split; auto.
Qed.

End Facts.

(** Counterexample to C2 as stated.  Constructing a cache with
    [maxSize = -1] does not raise; it returns a cache whose [maxSize] is
    -1. *)
Lemma constructor_negative_maxSize_accepted :
  raises (constructor nat {| opt_ttl := None; opt_maxSize := Some (-1)%Z |})
    = false /\
  constructor nat {| opt_ttl := None; opt_maxSize := Some (-1)%Z |} =
    Ok {| cache := []; defaultTtl := 3600000; maxSize := (-1);
          cleanupInterval := true |}.
Proof. split; reflexivity. Qed.

Lemma constructor_nonpositive_maxSize_witness :
  (-1 <= 0)%Z /\
  exists c,
    constructor nat {| opt_ttl := None; opt_maxSize := Some (-1)%Z |} = Ok c /\
    cache c = [] /\
    defaultTtl c = or_default None 3600000 /\
    maxSize c = (if (-1 =? 0)%Z then 1000 else -1)%Z.
Proof.
  split; [lia|].
  apply (@constructor_nonpositive_maxSize nat None (-1)%Z). lia.
Defined.

(** C3: the code at a failing input.  A cache with [maxSize = 2] holds two
    entries written at instant 100; a third [set] at the same instant
    evicts nothing, because [evictOldest] starts its search from
    [Date.now()] and only accepts strictly smaller timestamps: the cache
    then holds three entries. *)
Theorem set_at_capacity_same_instant :
  let c0 := @mkCache nat [] 3600000 2 true in
  let c2 := set "b" 2 None 100 (set "a" 1 None 100 c0) in
  let c3 := set "c" 3 None 100 c2 in
  constructor nat {| opt_ttl := None; opt_maxSize := Some 2%Z |} = Ok c0 /\
  size c2 = maxSize c2 /\
  evictOldest 100 c2 = c2 /\
  keys c3 = ["a"; "b"; "c"]%string /\
  size c3 = 3%Z /\
  (maxSize c3 < size c3)%Z.
Proof. cbv. repeat split; reflexivity. Qed.

(** The same [set] one instant later evicts the first of the two oldest
    entries and leaves the size at [maxSize]. *)
Example set_at_capacity_later_instant :
  let c0 := @mkCache nat [] 3600000 2 true in
  let c2 := set "b" 2 None 100 (set "a" 1 None 100 c0) in
  let c3 := set "c" 3 None 101 c2 in
  keys c3 = ["b"; "c"]%string /\ size c3 = maxSize c3.
Proof. cbv. split; reflexivity. Qed.

(** Overwriting a stored key on a full cache evicts as well. *)
Example set_at_capacity_overwrite :
  let c0 := @mkCache nat [] 3600000 2 true in
  let c2 := set "b" 2 None 100 (set "a" 1 None 100 c0) in
  let c3 := set "b" 3 None 101 c2 in
  keys c3 = ["b"]%string /\ size c3 = 1%Z.
Proof. cbv. split; reflexivity. Qed.

(** A cache built with [maxSize = -1] keeps one entry only. *)
Example negative_maxSize_keeps_one_entry :
  let c0 := @mkCache nat [] 3600000 (-1) true in
  keys (set "b" 2 None 2 (set "a" 1 None 1 c0)) = ["b"]%string.
Proof. cbv. reflexivity. Qed.

Lemma set_then_expired_read_witness :
  let c := @mkCache nat [] 3600000 1000 true in
  wf c /\ (0 + 50 < 51)%Z /\
  (let c1 := set "k" 7 (Some 50%Z) 0 c in
   let c2 := with_cache c1 (map_delete "k" (cache c1)) in
   get "k" 51 c1 = (c2, None) /\
   has "k" 51 c1 = (c2, false) /\
   get "k" 51 c2 = (c2, None) /\
   has "k" 51 c2 = (c2, false) /\
   map_get "k" (cache c2) = None /\
   ~ In "k"%string (keys c2) /\
   size c2 = (size c1 - 1)%Z).
Proof.
  intros c.
  assert (W : wf c) by constructor.
  assert (L : (0 + 50 < 51)%Z) by lia.
  split; [exact W|]. split; [exact L|].
  exact (@set_then_expired_read nat c "k"%string 7 0%Z 51%Z W L).
Defined.

Lemma reads_never_refresh_witness :
  let e := {| data := 7; timestamp := 0%Z; ttl := 50%Z |} in
  let c := @mkCache nat [("k"%string, e)] 3600000 1000 true in
  let ops := [(ByGet, 10%Z); (ByHas, 20%Z); (ByGet, 50%Z)] in
  wf c /\
  map_get "k" (cache c) = Some e /\
  Forall (fun op : read * Z => (snd op <= timestamp e + ttl e)%Z) ops /\
  reads "k" ops c = c.
Proof.
  intros e c ops.
  assert (W : wf c) by (repeat constructor; simpl; tauto).
  assert (G : map_get "k" (cache c) = Some e) by reflexivity.
  assert (F : Forall (fun op : read * Z =>
                        (snd op <= timestamp e + ttl e)%Z) ops)
    by (repeat constructor; simpl; lia).
  split; [exact W|]. split; [exact G|]. split; [exact F|].
  exact (proj1 (proj2 (proj2
           (@reads_never_refresh nat c "k"%string e ops W G F)))).
Defined.

End CacheFacts.

(** * Properties of the README parser *)

Module ParserFacts.
Import Str Regex RegexFacts ReadmeParser.

(** *** Lines *)

Lemma split_nl_nonempty s : split_nl s <> [].
Proof.
  destruct s as [|c s]; simpl; [discriminate|].
  destruct (Ascii.eqb c LF); [discriminate|].
  destruct (split_nl s); discriminate.
Qed.

Lemma join_split_nl s : join_nl (split_nl s) = s.
Proof.
  induction s as [|c s IH]; simpl; [reflexivity|].
  destruct (Ascii.eqb_spec c LF) as [->|Hne].
  - pose proof (split_nl_nonempty s) as Hn.
    destruct (split_nl s) as [|l ls]; [contradiction|].
    simpl in *. now rewrite IH.
  - pose proof (split_nl_nonempty s) as Hn.
    destruct (split_nl s) as [|l ls]; [contradiction|].
    destruct ls; simpl in *; now rewrite <- IH.
Qed.

(** *** The block pattern

    A match of [CODE_BLOCK_PATTERN] holds the two fences and two line
    feeds, so every search of the extraction loop starts further on. *)

Lemma code_block_match_advances i s j cs :
  match_at CODE_BLOCK_PATTERN i s = Some (j, cs) -> i + 8 <= j.
Proof.
  intros M. destruct (match_at_sound _ _ _ M) as (w & s' & _ & D & ->).
  apply Nat.add_le_mono_l.
  cbn in D.
  destruct D as (w1 & w2 & -> & D1 & w3 & w4 & -> & _ & w5 & w6 & -> & _
                 & w7 & w8 & -> & (c1 & -> & _) & w9 & w10 & -> & _
                 & w11 & w12 & -> & (c2 & -> & _) & D2).
  destruct D1 as (a1 & a2 & -> & (x1 & -> & _) & a3 & a4 & -> & (x2 & -> & _)
                  & (x3 & -> & _)).
  destruct D2 as (b1 & b2 & -> & (y1 & -> & _) & b3 & b4 & -> & (y2 & -> & _)
                  & (y3 & -> & _)).
  repeat (rewrite length_app; simpl). lia.
Qed.

Example extractCodeBlocks_empty : extractCodeBlocks [] = [].
Proof. reflexivity. Qed.

(** *** C8: The relevance filter *)

(** C8.  The reject checks come first: whenever the trimmed body of a
    block matches one of the noise patterns, [isRelevantCodeBlock] returns
    false, whatever the declared language and however long the body. *)
Theorem noise_is_rejected_first (code0 language0 : str) :
  existsb (fun pattern => test pattern (trim code0)) irrelevantPatterns
    = true ->
  isRelevantCodeBlock code0 language0 = false.
Proof.
  intros H. unfold isRelevantCodeBlock.
  destruct (negb (truthy code0) || (List.length (trim code0) <? 10)%nat);
    [reflexivity|].
  now rewrite H.
Qed.

(** A bare URL of 25 code units, untagged: the length fallback would
    accept it, the noise check rejects it. *)
Lemma noise_is_rejected_first_witness :
  let url := lit "https://example.com/abcde" in
  existsb (fun pattern => test pattern (trim url)) irrelevantPatterns = true /\
  isRelevantCodeBlock url [] = false.
Proof.
  intros url.
  assert (H : existsb (fun pattern => test pattern (trim url))
                      irrelevantPatterns = true) by (vm_compute; reflexivity).
  split; [exact H|].
  exact (@noise_is_rejected_first url [] H).
Defined.

Example url_25_meets_the_fallback :
  let url := lit "https://example.com/abcde" in
  List.length url = 25 /\
  (negb (truthy []) && (20 <? List.length url)%nat) = true /\
  isRelevantCodeBlock url [] = false /\
  isRelevantCodeBlock url (lit "swift") = false /\
  isRelevantCodeBlock (lit "plain words, 25 in total.") [] = true.
Proof. vm_compute. repeat split; reflexivity. Qed.

Example version_string_rejected :
  isRelevantCodeBlock (lit "1.2.3") (lit "swift") = false /\
  isRelevantCodeBlock (lit "1.2.3-beta.1+build") (lit "swift") = false /\
  isRelevantCodeBlock (lit "1.2.3 is the release") [] = false /\
  isRelevantCodeBlock (lit "let release = 123") (lit "swift") = true.
Proof. vm_compute. repeat split; reflexivity. Qed.

(** *** C10: Titles *)

Lemma push_block_loop sectionTitle content count blocks : forall i acc,
  fold_left (push_block sectionTitle content count) blocks (i, acc) =
  (i + List.length blocks,
   acc ++ map (example_at sectionTitle content count)
              (filter relevant_block
                      (combine (List.seq i (List.length blocks)) blocks))).
Proof.
  induction blocks as [|b blocks IH]; intros i acc; simpl.
  - now rewrite Nat.add_0_r, app_nil_r.
  - unfold relevant_block at 1. simpl.
    destruct (isRelevantCodeBlock (block_code b) (block_language b));
      rewrite IH; simpl; rewrite Nat.add_succ_r; [|reflexivity].
    now rewrite <- app_assoc.
Qed.

Lemma extractCodeBlocksFromSection_indexed sectionTitle content :
  extractCodeBlocksFromSection sectionTitle content =
  map (example_at sectionTitle content
                  (List.length (extractCodeBlocks content)))
      (filter relevant_block (indexed (extractCodeBlocks content))).
Proof.
  unfold extractCodeBlocksFromSection, indexed.
  now rewrite push_block_loop.
Qed.

(** C10.  The examples of a section are its relevant blocks, in order,
    each titled by its position among all the blocks that were extracted:
    the section title alone when exactly one block was extracted, else the
    section title, a space and the 1-based position of the block, rejected
    blocks counted.  So a section whose first block is rejected yields an
    example numbered 2 and none numbered 1. *)
Theorem titles_count_every_block (sectionTitle content : str) :
  let blocks := extractCodeBlocks content in
  extractCodeBlocksFromSection sectionTitle content =
    map (example_at sectionTitle content (List.length blocks))
        (filter relevant_block (indexed blocks)) /\
  map title (extractCodeBlocksFromSection sectionTitle content) =
    map (fun ib : nat * CodeBlock =>
           if (List.length blocks =? 1)%nat then sectionTitle
           else sectionTitle ++ lit " " ++ of_nat (fst ib + 1))
        (filter relevant_block (indexed blocks)) /\
  map title
      (extractCodeBlocksFromSection (lit "Usage")
         (doc ["```"; "1.0.0"; "```"; ""; "```swift"; "import MyLibrary";
               "let manager = MyLibrary.Manager()"; "```"]%string)) =
    [lit "Usage 2"].
Proof.
  intros blocks. split; [apply extractCodeBlocksFromSection_indexed|].
  split; [|vm_compute; reflexivity].
  rewrite extractCodeBlocksFromSection_indexed, map_map. reflexivity.
Qed.

Example single_block_title :
  map title
      (extractCodeBlocksFromSection (lit "Usage")
         (doc ["```swift"; "import MyLibrary"; "```"]%string)) =
    [lit "Usage"].
Proof. vm_compute. reflexivity. Qed.

(** *** C7: Descriptions *)

Lemma first_description_spec lines :
  match first_description lines with
  | Some d =>
      exists l1 x l2,
        lines = l1 ++ x :: l2 /\ d = trim x /\ qualifies x = true /\
        Forall (fun l => qualifies l = false) l1
  | None => Forall (fun l => qualifies l = false) lines
  end.
Proof.
  induction lines as [|line rest IH]; simpl; [constructor|].
  fold (qualifies line).
  destruct (qualifies line) eqn:Q.
  - exists [], line, rest. auto.
  - destruct (first_description rest) as [d|].
    + destruct IH as (l1 & x & l2 & -> & -> & Qx & Hl1).
      exists (line :: l1), x, l2. auto.
    + constructor; assumption.
Qed.

(** C7, as amended.  The description is the first line, going backwards
    from the offset through all the text before it, that after trimming is
    non-empty, not a heading and longer than 10 code units; heading lines
    are skipped like any other line that does not qualify, they do not end
    the search; nothing is returned exactly when no line before the offset
    qualifies. *)
Theorem description_is_nearest_qualifying_line (content : str)
  (blockIndex : nat) :
  let lines := rev (split_nl (firstn blockIndex content)) in
  join_nl (rev lines) = firstn blockIndex content /\
  match extractBlockDescription content blockIndex with
  | Some d =>
      exists l1 x l2,
        lines = l1 ++ x :: l2 /\ d = trim x /\ qualifies x = true /\
        Forall (fun l => qualifies l = false) l1
  | None => Forall (fun l => qualifies l = false) lines
  end.
Proof.
  intros lines. split.
  - unfold lines. rewrite rev_involutive. apply join_split_nl.
  - unfold extractBlockDescription, substring. rewrite Nat.sub_0_r. simpl skipn.
    apply first_description_spec.
Qed.

(** Counterexample to C7 as stated.  The only text between the heading
    [## API] and the block is an empty line, so a search bounded by the
    heading finds nothing; the code returns the line above the heading. *)
Lemma description_crosses_heading :
  let content :=
    doc ["Call the client as shown."; "## API"; ""; "```swift";
         "client.run()"; "```"]%string in
  map originalIndex (extractCodeBlocks content) = [34] /\
  extractBlockDescription content 34 =
    Some (lit "Call the client as shown.") /\
  describe_until_heading content 34 = None.
Proof. vm_compute. repeat split; reflexivity. Qed.

(** *** C9: The global fallback *)

Lemma scan_without_headings lines :
  Forall (fun line => test HEADING line = false) lines ->
  fold_left scan_line lines scan_init = scan_init.
Proof.
  induction 1 as [|line lines Hl _ IH]; simpl; [reflexivity|].
  unfold scan_line at 2. now rewrite Hl.
Qed.

Lemma dedup_singleton e : deduplicateExamples [e] = [e].
Proof. reflexivity. Qed.

(** When the sections give no example, the whole text goes through the
    extractor under the title [General Usage]. *)
Lemma fallback_runs_on_whole_text (s : str) :
  s <> [] ->
  sectionExamples s = [] ->
  parseUsageExamples (JStr s) =
  deduplicateExamples (extractCodeBlocksFromSection (lit "General Usage") s).
Proof.
  intros Hs Hsec. unfold parseUsageExamples, invalid.
  destruct s as [|c s]; [contradiction|]. simpl truthy. simpl negb.
  cbv iota. rewrite Hsec. reflexivity.
Qed.

(** C9, as amended.  A text with no heading line has no section examples,
    so [parseUsageExamples] runs the whole text through the extractor
    under the title [General Usage]; when that text holds exactly one
    fenced block, untagged, whose body is longer than 20 code units, at
    least 10 after trimming, and matches no noise pattern, the result is
    exactly one example, titled [General Usage]. *)
Theorem fallback_single_untagged_block (s : str) (b : CodeBlock) :
  Forall (fun line => test HEADING line = false) (split_nl s) ->
  extractCodeBlocks s = [b] ->
  block_language b = [] ->
  20 < List.length (block_code b) ->
  10 <= List.length (trim (block_code b)) ->
  existsb (fun pattern => test pattern (trim (block_code b)))
          irrelevantPatterns = false ->
  sectionExamples s = [] /\
  parseUsageExamples (JStr s) =
    deduplicateExamples
      (extractCodeBlocksFromSection (lit "General Usage") s) /\
  parseUsageExamples (JStr s) =
    [ {| title := lit "General Usage";
         description := extractBlockDescription s (originalIndex b);
         code := trim (block_code b);
         language := detectLanguage (block_code b) |} ].
Proof.
  intros Hh Hb Hl Hlen Htrim Hnoise.
  assert (Hs : s <> []).
  { intros ->. vm_compute in Hb. discriminate. }
  assert (Hsec : sectionExamples s = []).
  { unfold sectionExamples. now rewrite scan_without_headings. }
  assert (Hrel : isRelevantCodeBlock (block_code b) (block_language b) = true).
  { unfold isRelevantCodeBlock. rewrite Hnoise, Hl.
    destruct (block_code b) as [|c0 code0] eqn:Hc; [simpl in Hlen; lia|].
    rewrite <- Hc in *.
    assert (T : truthy (block_code b) = true) by now rewrite Hc.
    rewrite T. simpl negb. simpl orb.
    destruct (Nat.ltb_spec (List.length (trim (block_code b))) 10); [lia|].
    destruct (Nat.ltb_spec 20 (List.length (block_code b))); [|lia].
    simpl. now rewrite orb_true_r. }
  split; [exact Hsec|].
  split; [now apply fallback_runs_on_whole_text|].
  rewrite (fallback_runs_on_whole_text Hs Hsec).
  unfold extractCodeBlocksFromSection. rewrite Hb. simpl.
  rewrite Hrel. simpl. unfold language_of. rewrite Hl. reflexivity.
Qed.

Lemma fallback_single_untagged_block_witness :
  let s := doc ["```"; "this is some plain text"; "```"]%string in
  let b := {| block_code := lit "this is some plain text";
              block_language := []; originalIndex := 0 |} in
  Forall (fun line => test HEADING line = false) (split_nl s) /\
  extractCodeBlocks s = [b] /\
  block_language b = [] /\
  20 < List.length (block_code b) /\
  10 <= List.length (trim (block_code b)) /\
  existsb (fun pattern => test pattern (trim (block_code b)))
          irrelevantPatterns = false /\
  parseUsageExamples (JStr s) =
    [ {| title := lit "General Usage";
         description := extractBlockDescription s (originalIndex b);
         code := trim (block_code b);
         language := detectLanguage (block_code b) |} ].
Proof.
  intros s b.
  assert (H1 : Forall (fun line => test HEADING line = false) (split_nl s))
    by (vm_compute; repeat constructor).
  assert (H2 : extractCodeBlocks s = [b]) by (vm_compute; reflexivity).
  assert (H3 : block_language b = []) by reflexivity.
  assert (H4 : 20 < List.length (block_code b)) by (vm_compute; lia).
  assert (H5 : 10 <= List.length (trim (block_code b))) by (vm_compute; lia).
  assert (H6 : existsb (fun pattern => test pattern (trim (block_code b)))
                       irrelevantPatterns = false) by (vm_compute; reflexivity).
  repeat (split; [assumption|]).
  exact (proj2 (proj2 (@fallback_single_untagged_block s b H1 H2 H3 H4 H5 H6))).
Defined.

(** Counterexample to C9 as stated.  One untagged fenced block of exactly
    20 code units of plain text in a text without headings: the length
    fallback asks for more than 20, the block is rejected and no example
    is returned. *)
Lemma fallback_rejects_20_code_units :
  let s := doc ["```"; "twenty chars of text"; "```"]%string in
  Forall (fun line => test HEADING line = false) (split_nl s) /\
  map block_language (extractCodeBlocks s) = [[]] /\
  map (fun b => List.length (block_code b)) (extractCodeBlocks s) = [20] /\
  parseUsageExamples (JStr s) = [].
Proof.
  intros s. split; [vm_compute; repeat constructor|].
  vm_compute. repeat split; reflexivity.
Qed.

(** *** C1: Installation instructions *)

Ltac req_leaf := let c := fresh in let H := fresh in intros c H; exact H.
Ltac req_walk := first [ req_leaf | left; req_walk | right; req_walk ].
Ltac req_search :=
  cbv [req PODFILE CARTHAGE SPM BADGE_LINK BADGE_SHIELD HTML_COMMENT seq
       word word_ci map lit list_ascii_of_string chr plus star star_lazy
       ws_plus ws_star opt];
  req_walk.

Lemma PODFILE_needs_quote : req quote PODFILE.
Proof. req_search. Qed.

Lemma CARTHAGE_needs_quote : req quote CARTHAGE.
Proof. req_search. Qed.

Lemma SPM_needs_colon : req (eqc ":") SPM.
Proof. req_search. Qed.

(** On every string [extractInstallationInstructions] returns without
    raising; each field is what its probe matched and is absent when the
    probe matched nothing.  A text without quote characters has neither
    [podfile] nor [carthage], a text without a colon has no [spm]; the
    empty string gives the empty object. *)
Lemma installation_total_on_strings (s : str) :
  exists r,
    extractInstallationInstructions (JStr s) = Ok r /\
    podfile r = match0 PODFILE s /\
    carthage r = match0 CARTHAGE s /\
    spm r = match0 SPM s /\
    (lacks quote s -> podfile r = None /\ carthage r = None) /\
    (lacks (eqc ":") s -> spm r = None) /\
    extractInstallationInstructions (JStr []) =
      Ok {| podfile := None; carthage := None; spm := None |}.
Proof.
  eexists. split; [reflexivity|]. simpl.
  repeat split; try reflexivity.
  - now apply match0_lacks with (P := quote); [apply PODFILE_needs_quote|].
  - now apply match0_lacks with (P := quote); [apply CARTHAGE_needs_quote|].
  - intros L.
    now apply match0_lacks with (P := eqc ":"); [apply SPM_needs_colon|].
Qed.

(** C1.  On [null] and on [undefined] the first [readme.match] of
    [extractInstallationInstructions] raises a [TypeError], where
    [parseUsageExamples] and [cleanReadmeContent], which test their
    argument first, answer the same values with their empty default.  A
    number raises as well. *)
Theorem installation_raises_on_null :
  raises (extractInstallationInstructions JNull) = true /\
  raises (extractInstallationInstructions JUndefined) = true /\
  raises (extractInstallationInstructions (JNum 5)) = true /\
  parseUsageExamples JNull = [] /\ parseUsageExamples JUndefined = [] /\
  cleanReadmeContent JNull = [] /\ cleanReadmeContent JUndefined = [].
Proof. repeat split; reflexivity. Qed.

Example installation_probes :
  extractInstallationInstructions
    (JStr (doc ["pod 'MyLibrary', '~> 1.0'";
                "see https://github.com/user/MyLibrary) for more"]%string)) =
  Ok {| podfile := Some (lit "pod 'MyLibrary'");
        carthage := None;
        spm := Some (lit "https://github.com/user/MyLibrary") |}.
Proof. vm_compute. reflexivity. Qed.


(** *** C4: Cleaning *)

Local Abbreviation kfin :=
  (fun (j : nat) (_ : str) (cs : caps) => Some (j, cs)).
Local Abbreviation K2 := (fun j s cs => mt (chr LF) j s cs kfin).
Local Abbreviation K1 :=
  (fun j s cs => mt (Cat (chr LF) (Cat ws_star (chr LF))) j s cs kfin).

Lemma is_ws_LF c : Ascii.eqb c LF = true -> is_ws c = true.
Proof. intros H. apply Ascii.eqb_eq in H. now subst. Qed.

Lemma K2_eq j c u cs :
  K2 j (c :: u) cs = if Ascii.eqb c LF then Some (S j, cs) else None.
Proof. simpl. unfold eqc. now rewrite Ascii.eqb_sym. Qed.

Lemma inner_run u : forall j cs,
  rep_greedy is_ws j u cs K2 =
  if (0 <? lf_count u)%nat then Some (j + lf_cut u, cs) else None.
Proof.
  induction u as [|c u IH]; intros j cs; [reflexivity|].
  cbn [rep_greedy lf_count lf_cut]. rewrite IH, K2_eq.
  destruct (is_ws c) eqn:W.
  - destruct (0 <? lf_count u)%nat eqn:Hc.
    + apply Nat.ltb_lt in Hc.
      replace (0 <? (if Ascii.eqb c LF then 1 else 0) + lf_count u)%nat
        with true by (symmetry; apply Nat.ltb_lt; lia).
      now rewrite Nat.add_succ_r.
    + apply Nat.ltb_ge in Hc.
      destruct (Ascii.eqb c LF); simpl.
      * now rewrite Nat.add_1_r.
      * replace (lf_count u) with 0 by lia. reflexivity.
  - destruct (Ascii.eqb c LF) eqn:E; [|reflexivity].
    apply is_ws_LF in E. congruence.
Qed.

Lemma K1_eq j c t cs :
  K1 j (c :: t) cs =
  if Ascii.eqb c LF then rep_greedy is_ws (S j) t cs K2 else None.
Proof. simpl. unfold eqc. now rewrite Ascii.eqb_sym. Qed.

Lemma outer_run t : forall j cs,
  rep_greedy is_ws j t cs K1 =
  if (2 <=? lf_count t)%nat then Some (j + lf_cut t, cs) else None.
Proof.
  induction t as [|c t IH]; intros j cs; [reflexivity|].
  cbn [rep_greedy lf_count lf_cut]. rewrite IH, K1_eq, inner_run.
  destruct (is_ws c) eqn:W.
  - destruct (2 <=? lf_count t)%nat eqn:Hc.
    + apply Nat.leb_le in Hc.
      replace (2 <=? (if Ascii.eqb c LF then 1 else 0) + lf_count t)%nat
        with true by (symmetry; apply Nat.leb_le; lia).
      replace (0 <? lf_count t)%nat with true
        by (symmetry; apply Nat.ltb_lt; lia).
      now rewrite Nat.add_succ_r.
    + destruct (Ascii.eqb c LF); [|now rewrite Nat.add_0_l, Hc].
      destruct (lf_count t) as [|[|n]] eqn:Hn; [reflexivity| |discriminate].
      cbn. now rewrite Nat.add_succ_r.
  - destruct (Ascii.eqb c LF) eqn:E; [|reflexivity].
    apply is_ws_LF in E. congruence.
Qed.

(** Where [BLANK_LINES] matches, and how far. *)
Lemma match_at_BLANK_LINES i s :
  match_at BLANK_LINES i s =
  match s with
  | c :: t =>
      if Ascii.eqb c LF && (2 <=? lf_count t)%nat
      then Some (S i + lf_cut t, []) else None
  | [] => None
  end.
Proof.
  destruct s as [|c t]; [reflexivity|].
  change (match_at BLANK_LINES i (c :: t))
    with (if eqc LF c then rep_greedy is_ws (S i) t [] K1 else None).
  unfold eqc. rewrite Ascii.eqb_sym, outer_run.
  now destruct (Ascii.eqb c LF).
Qed.

Lemma replace_from_skip r repl n : forall i s,
  n <= List.length s ->
  replace_from r repl n i s = replace_from r repl 0 (i + n) (skipn n s).
Proof.
  induction n as [|n IH]; intros i s H.
  - now rewrite Nat.add_0_r.
  - destruct s as [|c s]; [simpl in H; lia|].
    cbn [replace_from skipn]. rewrite IH by (simpl in H; lia).
    now rewrite Nat.add_succ_r.
Qed.

Lemma lf_cut_le t : lf_cut t <= List.length t.
Proof.
  induction t as [|c t IH]; simpl; [lia|].
  destruct (is_ws c); [|lia].
  destruct (0 <? lf_count t)%nat; [lia|].
  destruct (Ascii.eqb c LF); lia.
Qed.

Lemma lf_count_after_cut t : lf_count (skipn (lf_cut t) t) = 0.
Proof.
  induction t as [|c t IH]; [reflexivity|].
  cbn [lf_cut]. destruct (is_ws c) eqn:W; [|simpl; now rewrite W].
  destruct (0 <? lf_count t)%nat eqn:Hc; [exact IH|].
  apply Nat.ltb_ge in Hc.
  destruct (Ascii.eqb c LF) eqn:E; simpl; [lia|].
  rewrite W, E. lia.
Qed.

Local Abbreviation squeeze := (replace_from BLANK_LINES [LF; LF] 0).

Lemma squeeze_cons i c s :
  squeeze i (c :: s) =
  if Ascii.eqb c LF && (2 <=? lf_count s)%nat
  then LF :: LF :: squeeze (S i + lf_cut s) (skipn (lf_cut s) s)
  else c :: squeeze (S i) s.
Proof.
  cbn [replace_from]. rewrite match_at_BLANK_LINES.
  destruct (Ascii.eqb c LF && (2 <=? lf_count s)%nat); [|reflexivity].
  replace (S i + lf_cut s =? i)%nat with false
    by (symmetry; apply Nat.eqb_neq; lia).
  replace (S i + lf_cut s - i - 1) with (lf_cut s) by lia.
  rewrite replace_from_skip by apply lf_cut_le. reflexivity.
Qed.

Lemma squeeze_props n : forall s i,
  List.length s <= n ->
  lf_count (squeeze i s) = Nat.min (lf_count s) 2 /\ settled (squeeze i s).
Proof.
  induction n as [|n IH]; intros s i H.
  - destruct s; [|simpl in H; lia]. simpl. auto.
  - destruct s as [|c s]; [simpl; auto|].
    rewrite squeeze_cons.
    destruct (Ascii.eqb c LF) eqn:E;
      [rewrite andb_true_l|rewrite andb_false_l].
    + apply Ascii.eqb_eq in E. subst c.
      destruct (Nat.leb_spec 2 (lf_count s)) as [Hc|Hc].
      * assert (Hlen : List.length (skipn (lf_cut s) s) <= n).
        { rewrite length_skipn. simpl in H. lia. }
        destruct (IH _ (S i + lf_cut s) Hlen) as [Hcnt Hset].
        rewrite lf_count_after_cut in Hcnt. change (Nat.min 0 2) with 0 in Hcnt.
        split.
        -- cbn [lf_count]. change (is_ws LF) with true.
           change (Ascii.eqb LF LF) with true. cbv iota. rewrite Hcnt. lia.
        -- cbn [settled lf_count]. change (is_ws LF) with true.
           change (Ascii.eqb LF LF) with true. cbv iota. rewrite Hcnt.
           repeat split; auto; lia.
      * destruct (IH s (S i)) as [Hcnt Hset]; [simpl in H; lia|].
        split.
        -- cbn [lf_count]. change (is_ws LF) with true.
           change (Ascii.eqb LF LF) with true. cbv iota. rewrite Hcnt. lia.
        -- cbn [settled]. split; [intros _; rewrite Hcnt; lia|assumption].
    + destruct (IH s (S i)) as [Hcnt Hset]; [simpl in H; lia|].
      split.
      * cbn [lf_count]. rewrite E, Hcnt. destruct (is_ws c); lia.
      * cbn [settled]. split; [|assumption].
        intros ->. discriminate.
Qed.

Lemma collapse_settled s : settled (collapse s).
Proof. apply (squeeze_props (n := List.length s)). lia. Qed.

Lemma squeeze_settled s : forall i, settled s -> squeeze i s = s.
Proof.
  induction s as [|c s IH]; intros i H; [reflexivity|].
  rewrite squeeze_cons. destruct H as [H1 H2].
  destruct (Ascii.eqb c LF) eqn:E;
    [rewrite andb_true_l|rewrite andb_false_l].
  - apply Ascii.eqb_eq in E.
    destruct (Nat.leb_spec 2 (lf_count s)) as [Hc|Hc];
      [specialize (H1 E); lia|].
    now rewrite IH.
  - now rewrite IH.
Qed.

(** [trim] *)

Lemma drop_ws_suffix s : exists a, s = a ++ drop_ws s.
Proof.
  induction s as [|c s [a IH]]; [now exists []|]. simpl.
  destruct (is_ws c).
  - exists (c :: a). simpl. now rewrite <- IH.
  - now exists [].
Qed.

Lemma drop_ws_head s :
  match drop_ws s with c :: _ => is_ws c = false | [] => True end.
Proof.
  induction s as [|c s IH]; simpl; [exact I|].
  destruct (is_ws c) eqn:W; [exact IH|exact W].
Qed.

Lemma drop_ws_fixed s :
  match s with c :: _ => is_ws c = false | [] => True end -> drop_ws s = s.
Proof. destruct s as [|c s]; simpl; [reflexivity|]. now intros ->. Qed.

Lemma trim_prefix s : exists z, drop_ws s = trim s ++ z.
Proof.
  unfold trim.
  destruct (drop_ws_suffix (rev (drop_ws s))) as [a Ha].
  exists (rev a).
  rewrite <- rev_app_distr, <- Ha. now rewrite rev_involutive.
Qed.

Lemma trim_idempotent s : trim (trim s) = trim s.
Proof.
  assert (H1 : drop_ws (trim s) = trim s).
  { apply drop_ws_fixed. destruct (trim_prefix s) as [z Hz].
    pose proof (drop_ws_head s) as Hd. rewrite Hz in Hd.
    destruct (trim s); [exact I|exact Hd]. }
  unfold trim at 1. rewrite H1. unfold trim.
  rewrite rev_involutive.
  rewrite (drop_ws_fixed (drop_ws (rev (drop_ws s)))); [reflexivity|].
  apply drop_ws_head.
Qed.

Lemma settled_drop_ws s : settled s -> settled (drop_ws s).
Proof.
  induction s as [|c s IH]; simpl; [auto|].
  intros [H1 H2]. destruct (is_ws c); [auto|]. simpl. auto.
Qed.

Lemma lf_count_app_le y z : lf_count y <= lf_count (y ++ z).
Proof.
  induction y as [|c y IH]; simpl; [lia|].
  destruct (is_ws c); lia.
Qed.

Lemma settled_app_l y z : settled (y ++ z) -> settled y.
Proof.
  induction y as [|c y IH]; simpl; [auto|].
  intros [H1 H2]. split; [|auto].
  intros E. specialize (H1 E). pose proof (lf_count_app_le y z). lia.
Qed.

Lemma settled_trim s : settled s -> settled (trim s).
Proof.
  intros H. apply settled_drop_ws in H.
  destruct (trim_prefix s) as [z Hz]. rewrite Hz in H.
  eapply settled_app_l; eassumption.
Qed.

Lemma clean_str_settled s : settled (clean_str s).
Proof. unfold clean_str. apply settled_trim, collapse_settled. Qed.

Lemma BADGE_LINK_needs_bracket : req (eqc "[") BADGE_LINK.
Proof. req_search. Qed.

Lemma BADGE_SHIELD_needs_bracket : req (eqc "[") BADGE_SHIELD.
Proof. req_search. Qed.

Lemma HTML_COMMENT_needs_angle : req (eqc "<") HTML_COMMENT.
Proof. req_search. Qed.

(** *** A pattern that matches nowhere, and how much a replacement removes *)

Lemma replace_from_no_match r repl s : forall i,
  search_from r i s = None -> replace_from r repl 0 i s = s.
Proof.
  induction s as [|c s IH]; intros i; simpl;
    destruct (match_at r i _) as [[j cs]|]; try discriminate;
    try reflexivity.
  intros H. now rewrite IH.
Qed.

Lemma replace_all_no_match r repl s :
  test r s = false -> replace_all r repl s = s.
Proof.
  unfold test, exec, replace_all. intros H.
  apply replace_from_no_match.
  now destruct (search_from r 0 s).
Qed.

Lemma match_at_span r i s j cs :
  match_at r i s = Some (j, cs) -> i <= j <= i + List.length s.
Proof.
  intros H. apply match_at_sound in H.
  destruct H as (w & s' & -> & _ & ->). rewrite length_app. lia.
Qed.

(** Replacing matches by a text that is no longer than any of them does
    not lengthen the input. *)
Lemma replace_from_length r repl
  (Hlen : forall i s j cs,
      match_at r i s = Some (j, cs) -> i + List.length repl <= j) s :
  forall skip i,
    List.length (replace_from r repl skip i s) <= List.length s - skip.
Proof.
  induction s as [|c s IH]; intros skip i; destruct skip as [|n];
    cbn [replace_from].
  - destruct (match_at r i []) as [[j cs]|] eqn:M; [|simpl; lia].
    pose proof (Hlen _ _ _ _ M). apply match_at_span in M.
    rewrite length_app. simpl in *. lia.
  - simpl. lia.
  - destruct (match_at r i (c :: s)) as [[j cs]|] eqn:M.
    + pose proof (Hlen _ _ _ _ M) as L. apply match_at_span in M.
      rewrite length_app. cbn [List.length] in *.
      destruct (Nat.eqb_spec j i) as [->|Hne]; cbn [List.length].
      * specialize (IH 0 (S i)). lia.
      * specialize (IH (j - i - 1) (S i)). lia.
    + cbn [List.length]. specialize (IH 0 (S i)). lia.
  - cbn [List.length]. specialize (IH n (S i)). lia.
Qed.

(** Deleting the matches of a pattern that matches no empty text shortens
    every input in which the pattern matches. *)
Lemma replace_from_shrinks r
  (Hne : forall i s j cs, match_at r i s = Some (j, cs) -> i < j) s :
  forall i,
    search_from r i s <> None ->
    List.length (replace_from r [] 0 i s) < List.length s.
Proof.
  assert (Hlen : forall i s j cs,
             match_at r i s = Some (j, cs) ->
             i + List.length (@nil ascii) <= j).
  { intros i0 s0 j cs M. apply Hne in M. simpl. lia. }
  induction s as [|c s IH]; intros i; cbn [search_from replace_from].
  - destruct (match_at r i []) as [[j cs]|] eqn:M; [|congruence].
    pose proof (Hne _ _ _ _ M). apply match_at_span in M. simpl in M. lia.
  - destruct (match_at r i (c :: s)) as [[j cs]|] eqn:M.
    + intros _. pose proof (Hne _ _ _ _ M) as L.
      destruct (Nat.eqb_spec j i) as [->|_]; [lia|].
      pose proof (@replace_from_length r [] Hlen s (j - i - 1) (S i)).
      simpl. lia.
    + intros H. specialize (IH (S i) H). simpl. lia.
Qed.

Lemma req_match_nonempty P r i s j cs :
  req P r -> match_at r i s = Some (j, cs) -> i < j.
Proof.
  intros R M. apply match_at_sound in M.
  destruct M as (w & s' & _ & D & ->).
  destruct (@den_req P r w R D) as (c & Hc & _).
  destruct w; [destruct Hc|simpl; lia].
Qed.

Lemma strip_shrinks P r s :
  req P r -> test r s = true ->
  List.length (replace_all r [] s) < List.length s.
Proof.
  intros R T. unfold replace_all. apply replace_from_shrinks.
  - intros i s0 j cs. now apply req_match_nonempty with (P := P).
  - unfold test, exec in T. now destruct (search_from r 0 s).
Qed.

Lemma strip_length P r s :
  req P r -> List.length (replace_all r [] s) <= List.length s.
Proof.
  intros R. unfold replace_all.
  assert (H : forall i s0 j cs,
             match_at r i s0 = Some (j, cs) ->
             i + List.length (@nil ascii) <= j).
  { intros i s0 j cs M.
    pose proof (@req_match_nonempty P r i s0 j cs R M). simpl. lia. }
  pose proof (@replace_from_length r [] H s 0 0). lia.
Qed.

Lemma collapse_length s : List.length (collapse s) <= List.length s.
Proof.
  unfold collapse, replace_all.
  assert (H : forall i s0 j cs,
             match_at BLANK_LINES i s0 = Some (j, cs) ->
             i + List.length [LF; LF] <= j).
  { intros i s0 j cs M. apply match_at_sound in M.
    destruct M as (w & s' & _ & D & ->).
    unfold BLANK_LINES in D. cbn [den seq chr] in D.
    destruct D as (w1 & r1 & -> & (c1 & -> & _) & D).
    destruct D as (w2 & r2 & -> & _ & D).
    destruct D as (w3 & r3 & -> & (c3 & -> & _) & D).
    repeat (rewrite length_app; cbn [List.length]). lia. }
  pose proof (@replace_from_length BLANK_LINES [LF; LF] H s 0 0). lia.
Qed.

Lemma trim_shorter s : List.length (trim s) <= List.length s.
Proof.
  destruct (trim_prefix s) as [z Hz].
  destruct (drop_ws_suffix s) as [a Ha].
  rewrite Ha at 2. rewrite Hz, !length_app. lia.
Qed.

(** Where a badge or a comment is left to strip, cleaning shortens the
    text. *)
Lemma clean_str_shrinks y :
  test BADGE_LINK y = true \/ test BADGE_SHIELD y = true \/
  test HTML_COMMENT y = true ->
  List.length (clean_str y) < List.length y.
Proof.
  intros H. unfold clean_str, strip_noise.
  set (y1 := replace_all BADGE_LINK [] y).
  set (y2 := replace_all BADGE_SHIELD [] y1).
  set (y3 := replace_all HTML_COMMENT [] y2).
  pose proof (trim_shorter (collapse y3)) as L5.
  pose proof (collapse_length y3) as L4.
  pose proof (@strip_length _ HTML_COMMENT y2 HTML_COMMENT_needs_angle)
    as L3.
  pose proof (@strip_length _ BADGE_SHIELD y1 BADGE_SHIELD_needs_bracket)
    as L2.
  pose proof (@strip_length _ BADGE_LINK y BADGE_LINK_needs_bracket) as L1.
  fold y1 in L1. fold y2 in L2. fold y3 in L3.
  destruct (test BADGE_LINK y) eqn:T1.
  { pose proof (@strip_shrinks _ BADGE_LINK y BADGE_LINK_needs_bracket T1)
      as S1. fold y1 in S1. lia. }
  assert (E1 : y1 = y) by (now apply replace_all_no_match).
  destruct (test BADGE_SHIELD y) eqn:T2.
  { rewrite <- E1 in T2.
    pose proof (@strip_shrinks _ BADGE_SHIELD y1
                  BADGE_SHIELD_needs_bracket T2) as S2.
    fold y2 in S2. lia. }
  assert (E2 : y2 = y).
  { unfold y2. rewrite E1. now apply replace_all_no_match. }
  destruct H as [H|[H|H]]; try discriminate.
  rewrite <- E2 in H.
  pose proof (@strip_shrinks _ HTML_COMMENT y2 HTML_COMMENT_needs_angle H)
    as S3.
  fold y3 in S3. lia.
Qed.

Lemma strip_noise_no_match y :
  test BADGE_LINK y = false -> test BADGE_SHIELD y = false ->
  test HTML_COMMENT y = false -> strip_noise y = y.
Proof.
  intros T1 T2 T3. unfold strip_noise.
  rewrite (replace_all_no_match BADGE_LINK [] y T1).
  rewrite (replace_all_no_match BADGE_SHIELD [] y T2).
  now apply replace_all_no_match.
Qed.

(** A cleaned text in which nothing is left to strip is a fixed point:
    collapsing blank lines and trimming are idempotent. *)
Lemma clean_str_fixed s :
  test BADGE_LINK (clean_str s) = false ->
  test BADGE_SHIELD (clean_str s) = false ->
  test HTML_COMMENT (clean_str s) = false ->
  clean_str (clean_str s) = clean_str s.
Proof.
  intros T1 T2 T3. unfold clean_str at 1.
  rewrite strip_noise_no_match by assumption.
  unfold collapse, replace_all.
  rewrite (@squeeze_settled (clean_str s) 0 (clean_str_settled s)).
  unfold clean_str. apply trim_idempotent.
Qed.

(** C4, as amended.  Cleaning a cleaned text changes nothing exactly when
    none of the three patterns that cleaning strips (the linked badge, the
    shields.io badge, the comment) matches the cleaned text.  Then nothing
    is left to strip, and collapsing blank lines and trimming are
    idempotent; otherwise the second cleaning strips the match and returns
    a shorter text. *)
Theorem clean_idempotent_iff_nothing_to_strip (readme : jsval) :
  cleanReadmeContent (JStr (cleanReadmeContent readme)) =
    cleanReadmeContent readme <->
  test BADGE_LINK (cleanReadmeContent readme) = false /\
  test BADGE_SHIELD (cleanReadmeContent readme) = false /\
  test HTML_COMMENT (cleanReadmeContent readme) = false.
Proof.
  assert (E : forall y, cleanReadmeContent (JStr y) = clean_str y).
  { intros [|c y]; reflexivity. }
  assert (N : cleanReadmeContent (JStr []) = [] /\
              test BADGE_LINK [] = false /\ test BADGE_SHIELD [] = false /\
              test HTML_COMMENT [] = false)
    by (repeat split; reflexivity).
  assert (S : forall s,
             clean_str (clean_str s) = clean_str s <->
             test BADGE_LINK (clean_str s) = false /\
             test BADGE_SHIELD (clean_str s) = false /\
             test HTML_COMMENT (clean_str s) = false).
  { intros s. split.
    - intros F.
      destruct (test BADGE_LINK (clean_str s)) eqn:T1;
        [|destruct (test BADGE_SHIELD (clean_str s)) eqn:T2;
          [|destruct (test HTML_COMMENT (clean_str s)) eqn:T3;
            [|auto]]];
        exfalso;
        assert (L : List.length (clean_str (clean_str s)) <
                    List.length (clean_str s))
          by (apply clean_str_shrinks; auto);
        rewrite F in L; lia.
    - intros (T1 & T2 & T3). now apply clean_str_fixed. }
  destruct readme as [| | | |s]; try (split; [intros _|intros _]; apply N).
  rewrite (E (cleanReadmeContent (JStr s))).
  destruct s as [|c s]; [split; [intros _|intros _]; apply N|].
  change (cleanReadmeContent (JStr (c :: s))) with (clean_str (c :: s)).
  apply S.
Qed.

Lemma clean_idempotent_iff_nothing_to_strip_witness :
  let readme :=
    JStr (doc ["<!-- build status -->"; "# Title"; ""; ""; "";
               "See [the guide](https://example.com/guide) and Array<Int>."]
              %string) in
  (test BADGE_LINK (cleanReadmeContent readme) = false /\
   test BADGE_SHIELD (cleanReadmeContent readme) = false /\
   test HTML_COMMENT (cleanReadmeContent readme) = false) /\
  cleanReadmeContent (JStr (cleanReadmeContent readme)) =
  cleanReadmeContent readme.
Proof.
  intros readme.
  assert (H : test BADGE_LINK (cleanReadmeContent readme) = false /\
              test BADGE_SHIELD (cleanReadmeContent readme) = false /\
              test HTML_COMMENT (cleanReadmeContent readme) = false)
    by (vm_compute; repeat split; reflexivity).
  split; [exact H|].
  exact (proj2 (@clean_idempotent_iff_nothing_to_strip readme) H).
Defined.

(** Counterexample to C4 as stated.  Removing the inner comment of
    [<!<!---->-- x -->y] leaves [<!-- x -->y], a comment that only a second
    cleaning removes. *)
Lemma clean_not_idempotent :
  let x := JStr (lit "<!<!---->-- x -->y") in
  cleanReadmeContent x = lit "<!-- x -->y" /\
  cleanReadmeContent (JStr (cleanReadmeContent x)) = lit "y" /\
  cleanReadmeContent (JStr (cleanReadmeContent x)) <> cleanReadmeContent x.
Proof.
  intros x. split; [vm_compute; reflexivity|].
  split; [vm_compute; reflexivity|]. vm_compute. discriminate.
Qed.
End ParserFacts.

(** * Further properties of the cache *)

Module CacheMore.
Import Cache CacheFacts CacheRuns.

Section More.

Variable T : Type.

Local Abbreviation entry := (CacheEntry T).
Local Abbreviation mcache := (MemoryCache T).
Local Abbreviation store := (Cache.store T).

Implicit Types (m : store) (c : mcache) (k key : string) (e : entry).

Lemma map_get_set_other m k k' e :
  k' <> k -> map_get k' (map_set k e m) = map_get k' m.
Proof.
  intros Hne.
  induction m as [|[k0 e0] m IH]; simpl.
  - destruct (String.eqb_spec k' k); [contradiction|reflexivity].
  - destruct (String.eqb_spec k k0) as [->|Hk]; simpl.
    + destruct (String.eqb_spec k' k0); [contradiction|reflexivity].
    + now rewrite IH.
Qed.

Lemma map_set_length m k e :
  List.length (map_set k e m) =
  if map_has k m then List.length m else S (List.length m).
Proof.
  unfold map_has.
  induction m as [|[k0 e0] m IH]; simpl; [reflexivity|].
  destruct (String.eqb k k0); simpl; [reflexivity|].
  rewrite IH. now destruct (map_get k m).
Qed.

(** X1.  A value written under a key is read back under that key until its
    time to live has passed, the instant [t0 + ttl] included; an absent or
    zero [ttl] stands for the default of the cache.  The read leaves the
    cache as the write left it. *)
Theorem set_get_round_trip c k (v : T) (t : option Z) (t0 now : Z) :
  (now <= t0 + or_default t (defaultTtl c))%Z ->
  get k now (set k v t t0 c) = (set k v t t0 c, Some v) /\
  has k now (set k v t t0 c) = (set k v t t0 c, true).
Proof.
  intros H.
  assert (G : map_get k (cache (set k v t t0 c)) =
              Some {| data := v; timestamp := t0;
                      ttl := or_default t (defaultTtl c) |}).
  { unfold set. simpl. apply map_get_set_same. }
  split.
  - now rewrite (get_live _ _ G H).
  - now rewrite (has_live _ _ G H).
Qed.

(** X2.  Below capacity a write touches its own key only: every other key
    keeps its entry, an overwritten key keeps its place in the order, a
    new key goes last, and the size grows by one exactly for a new key. *)
Theorem set_below_capacity c k (v : T) (t : option Z) (now : Z) :
  (size c < maxSize c)%Z ->
  (forall k', k' <> k ->
     map_get k' (cache (set k v t now c)) = map_get k' (cache c)) /\
  keys (set k v t now c) =
    (if map_has k (cache c) then keys c else keys c ++ [k]) /\
  size (set k v t now c) =
    (if map_has k (cache c) then size c else size c + 1)%Z.
Proof.
  intros H. unfold set.
  destruct (Z.leb_spec (maxSize c) (size c)) as [Hle|_]; [lia|].
  simpl. split; [|split].
  - intros k' Hne. now apply map_get_set_other.
  - unfold keys. simpl. apply map_keys_set.
  - unfold size. simpl. rewrite map_set_length.
    destruct (map_has k (cache c)); lia.
Qed.

(** X3.  [delete] answers whether the key was stored.  Afterwards the key is
    absent at every instant, every other key keeps its entry, and the size
    has dropped by one exactly when the answer is true; deleting an absent
    key changes nothing. *)
Theorem delete_removes_key c k :
  wf c ->
  let c' := fst (delete k c) in
  snd (delete k c) = map_has k (cache c) /\
  (forall now, get k now c' = (c', None) /\ has k now c' = (c', false)) /\
  (forall k', k' <> k -> map_get k' (cache c') = map_get k' (cache c)) /\
  size c' = (size c - (if snd (delete k c) then 1 else 0))%Z /\
  (snd (delete k c) = false -> cache c' = cache c).
Proof.
  intros W c'. unfold delete in *. simpl in *.
  assert (N : map_get k (cache c') = None).
  { unfold c'. simpl. now apply map_get_delete_same. }
  split; [reflexivity|]. split; [|split; [|split]].
  - intros now. unfold get, has. now rewrite N.
  - intros k' Hne. unfold c'. simpl. now apply map_get_delete_other.
  - unfold size, c', map_has. simpl.
    destruct (map_get k (cache c)) as [e|] eqn:G.
    + pose proof (map_delete_length _ _ G). lia.
    + assert (E : map_delete k (cache c) = cache c).
      { clear - G. induction (cache c) as [|[k0 e0] m IH]; simpl in *;
          [reflexivity|].
        destruct (String.eqb k k0); [discriminate|]. now rewrite IH. }
      rewrite E. lia.
  - unfold map_has, c'. simpl.
    destruct (map_get k (cache c)) as [e|] eqn:G; [discriminate|].
    intros _. clear - G. induction (cache c) as [|[k0 e0] m IH]; simpl in *;
      [reflexivity|].
    destruct (String.eqb k k0); [discriminate|]. now rewrite IH.
Qed.

(** X4.  [has] is true exactly when [get] returns the data, and the two leave
    the cache in the same state. *)
Theorem has_agrees_with_get c k (now : Z) :
  fst (has k now c) = fst (get k now c) /\
  snd (has k now c) =
    match snd (get k now c) with Some _ => true | None => false end.
Proof.
  unfold has, get.
  destruct (map_get k (cache c)) as [e|]; [|auto].
  destruct (timestamp e + ttl e <? now)%Z; auto.
Qed.

Lemma map_get_filter m k (f : entry -> bool) :
  NoDup (map_keys m) ->
  map_get k (filter (fun ke => f (snd ke)) m) =
  match map_get k m with
  | Some e => if f e then Some e else None
  | None => None
  end.
Proof.
  induction m as [|[k0 e0] m IH]; simpl; [reflexivity|].
  intros H. inversion H as [|? ? Hn Hd]; subst.
  destruct (String.eqb_spec k k0) as [->|Hk].
  - destruct (f e0) eqn:F; simpl.
    + now rewrite String.eqb_refl.
    + rewrite IH by assumption.
      apply map_get_None in Hn. now rewrite Hn.
  - destruct (f e0); simpl; [|auto].
    destruct (String.eqb_spec k k0); [contradiction|auto].
Qed.

Lemma filter_twice (A : Type) (f : A -> bool) (l : list A) :
  filter f (filter f l) = filter f l.
Proof.
  induction l as [|x l IH]; simpl; [reflexivity|].
  destruct (f x) eqn:E; simpl; [rewrite E|]; now rewrite IH.
Qed.

(** X5.  The sweep keeps, in order, exactly the entries that have not expired.
    It agrees with the expiry done by the reads: after a sweep at [now] a
    [get] at [now] returns what it would have returned without the sweep,
    and finds nothing left to delete. *)
Theorem cleanExpired_agrees_with_get c k (now : Z) :
  wf c ->
  cache (cleanExpired now c) =
    filter (fun ke => (now <=? timestamp (snd ke) + ttl (snd ke))%Z)
           (cache c) /\
  snd (get k now (cleanExpired now c)) = snd (get k now c) /\
  fst (get k now (cleanExpired now c)) = cleanExpired now c /\
  cleanExpired now (cleanExpired now c) = cleanExpired now c.
Proof.
  intros W.
  assert (F : forall ke : string * entry,
             negb (expired now (snd ke)) =
             (now <=? timestamp (snd ke) + ttl (snd ke))%Z).
  { intros ke. unfold expired. now rewrite Z.leb_antisym. }
  assert (G : map_get k (cache (cleanExpired now c)) =
              match map_get k (cache c) with
              | Some e => if negb (expired now e) then Some e else None
              | None => None
              end).
  { unfold cleanExpired. simpl.
    apply (@map_get_filter (cache c) k (fun e => negb (expired now e))).
    exact W. }
  split; [|split; [|split]].
  - unfold cleanExpired. simpl. apply filter_ext. exact F.
  - unfold get at 1. rewrite G. unfold get.
    destruct (map_get k (cache c)) as [e|]; [|reflexivity].
    unfold expired. destruct (timestamp e + ttl e <? now)%Z eqn:X; simpl.
    + reflexivity.
    + now rewrite X.
  - unfold get. rewrite G.
    destruct (map_get k (cache c)) as [e|]; [|reflexivity].
    unfold expired. destruct (timestamp e + ttl e <? now)%Z eqn:X; simpl.
    + reflexivity.
    + now rewrite X.
  - unfold cleanExpired, with_cache. simpl. f_equal. apply filter_twice.
Qed.

(** X6.  [evictOldest] removes at most one entry and changes none of those it
    keeps. *)
Theorem evictOldest_removes_at_most_one c (now : Z) :
  wf c ->
  (size c - 1 <= size (evictOldest now c) <= size c)%Z /\
  (forall k e, map_get k (cache (evictOldest now c)) = Some e ->
               map_get k (cache c) = Some e).
Proof.
  intros W. unfold evictOldest.
  destruct (fst (oldest_scan now (cache c))) as [k0|];
    [|split; [lia|auto]].
  destruct (truthy k0); [|split; [lia|auto]].
  split.
  - unfold size. simpl.
    destruct (map_get k0 (cache c)) as [e0|] eqn:G.
    + pose proof (map_delete_length _ _ G). lia.
    + assert (E : map_delete k0 (cache c) = cache c).
      { clear - G. induction (cache c) as [|[k1 e1] m IH]; simpl in *;
          [reflexivity|].
        destruct (String.eqb k0 k1); [discriminate|]. now rewrite IH. }
      rewrite E. lia.
  - intros k e. simpl. destruct (string_dec k k0) as [->|Hne].
    + now rewrite map_get_delete_same.
    + now rewrite map_get_delete_other.
Qed.

(** *** Capacity *)




(** With one reading of the clock [set_ticking] is [set]. *)
Lemma set_ticking_same k (v : T) (t : option Z) (now : Z) c :
  set_ticking k v t now now c = set k v t now c.
Proof. reflexivity. Qed.




End More.

Lemma set_get_round_trip_witness :
  let c := @mkCache nat [] 3600000 1000 true in
  (3600000 <= 0 + or_default (Some 0%Z) (defaultTtl c))%Z /\
  get "k" 3600000 (set "k" 7 (Some 0%Z) 0 c)
    = (set "k" 7 (Some 0%Z) 0 c, Some 7) /\
  has "k" 3600000 (set "k" 7 (Some 0%Z) 0 c)
    = (set "k" 7 (Some 0%Z) 0 c, true).
Proof.
  intros c.
  assert (H : (3600000 <= 0 + or_default (Some 0%Z) (defaultTtl c))%Z)
    by (unfold c; simpl; lia).
  split; [exact H|].
  exact (@set_get_round_trip nat c "k"%string 7 (Some 0%Z) 0%Z 3600000%Z H).
Defined.

Lemma set_below_capacity_witness :
  let c := @mkCache nat [("a"%string, mkEntry 1 0%Z 50%Z)] 3600000 2 true in
  (size c < maxSize c)%Z /\
  keys (set "b" 2 None 5 c) =
    (if map_has "b" (cache c) then keys c else keys c ++ ["b"%string]).
Proof.
  intros c.
  assert (H : (size c < maxSize c)%Z) by (unfold c, size; simpl; lia).
  split; [exact H|].
  exact (proj1 (proj2 (@set_below_capacity nat c "b"%string 2 None 5%Z H))).
Defined.

Lemma delete_removes_key_witness :
  let c := @mkCache nat [("a"%string, mkEntry 1 0%Z 50%Z)] 3600000 2 true in
  wf c /\ snd (delete "a" c) = map_has "a" (cache c).
Proof.
  intros c.
  assert (W : wf c) by (repeat constructor; simpl; tauto).
  split; [exact W|].
  exact (proj1 (@delete_removes_key nat c "a"%string W)).
Defined.

Lemma cleanExpired_agrees_with_get_witness :
  let c := @mkCache nat [("a"%string, mkEntry 1 0%Z 50%Z);
                         ("b"%string, mkEntry 2 0%Z 500%Z)]
                    3600000 2 true in
  wf c /\
  snd (get "b" 100 (cleanExpired 100 c)) = snd (get "b" 100 c).
Proof.
  intros c.
  assert (W : wf c).
  { repeat constructor; simpl; [|tauto].
    intros [H|[]]. discriminate. }
  split; [exact W|].
  exact (proj1 (proj2 (@cleanExpired_agrees_with_get nat c "b"%string
                         100%Z W))).
Defined.

Lemma evictOldest_removes_at_most_one_witness :
  let c := @mkCache nat [("a"%string, mkEntry 1 0%Z 50%Z);
                         ("b"%string, mkEntry 2 0%Z 500%Z)]
                    3600000 2 true in
  wf c /\
  (size c - 1 <= size (evictOldest 100 c) <= size c)%Z.
Proof.
  intros c.
  assert (W : wf c).
  { repeat constructor; simpl; [|tauto].
    intros [H|[]]. discriminate. }
  split; [exact W|].
  exact (proj1 (@evictOldest_removes_at_most_one nat c 100%Z W)).
Defined.


(** Why a write has to begin after the timestamp of the one before: with
    room for one entry, a write stamped 101 followed by a write whose
    eviction still reads 101 leaves two entries, although the timestamps
    101 and 102 increase. *)
Example set_ticking_over_capacity :
  let c := @mkCache nat [] 3600000 1 true in
  let ws := [mkWrite "a" 1 None 100 101; mkWrite "b" 2 None 101 102] in
  size (run_sets ws c) = 2%Z /\ maxSize (run_sets ws c) = 1%Z.
Proof. split; reflexivity. Qed.

End CacheMore.

(** * Properties of the error handling *)

Module ErrorFacts.
Import ErrorHandler.

Lemma includes_code_In l n : includes_code l n = true <-> In n l.
Proof.
  unfold includes_code. rewrite existsb_exists. split.
  - intros (x & Hin & Hx). apply Nat.eqb_eq in Hx. now subst.
  - intros Hin. exists n. split; [exact Hin|apply Nat.eqb_refl].
Qed.

(** The [instanceof NetworkError] branch is never reached: a
    [NetworkError] is a [PackageReadmeMcpError]. *)
Lemma isRetryableError_by_status e :
  isRetryableError e =
  is_mcp e &&
  match statusCode e with
  | Some n => includes_code (retryableStatusCodes DEFAULT_RETRY_CONFIG) n
  | None => false
  end.
Proof.
  unfold isRetryableError, is_mcp, is_network.
  destruct (cls e); reflexivity.
Qed.

(** X8.  An error is retried exactly when it is a [PackageReadmeMcpError] (of
    any subclass) that carries one of the status codes 429, 500, 502, 503
    and 504.  A [RateLimitError] is retried; a [NetworkError], which
    carries no status code, is not, and neither are the two not-found
    errors (404) nor a value of any other class. *)
Theorem retryable_errors (e : js_error) :
  (isRetryableError e = true <->
   is_mcp e = true /\
   exists n, statusCode e = Some n /\ In n [429; 500; 502; 503; 504]) /\
  (forall msg orig, isRetryableError (NetworkError msg orig) = false) /\
  (forall service after,
     isRetryableError (RateLimitError service after) = true) /\
  (forall name, isRetryableError (PackageNotFoundError name) = false) /\
  (forall name v, isRetryableError (VersionNotFoundError name v) = false) /\
  (cls e = OtherValue -> isRetryableError e = false).
Proof.
  split; [|repeat split; try reflexivity].
  - rewrite isRetryableError_by_status, andb_true_iff.
    split; intros [Hm Hs]; (split; [exact Hm|]).
    + destruct (statusCode e) as [n|]; [|discriminate].
      exists n. split; [reflexivity|]. now apply includes_code_In.
    + destruct Hs as (n & -> & Hin). now apply includes_code_In.
  - intros C. unfold isRetryableError, is_mcp, is_network. now rewrite C.
Qed.

(** X9.  The error built from an HTTP response is retried exactly when the
    status is 429: every other status, the 5xx ones included, gives a
    [NetworkError]. *)
Theorem http_error_retried_only_on_429 (parseInt : string -> option Z)
  (response : Response) (context : string) :
  isRetryableError (handleHttpError parseInt response context) =
    (status response =? 429)%nat /\
  ((status response =? 429)%nat = false ->
   cls (handleHttpError parseInt response context) = Network).
Proof.
  unfold handleHttpError.
  destruct (status response =? 429)%nat; [split; [reflexivity|discriminate]|].
  destruct (500 <=? status response)%nat; split; reflexivity.
Qed.

Section Retry.

Variable A : Type.
Variable operation : nat -> attempt_result A.




End Retry.


Example rate_limit_is_retried_to_the_end :
  withRetry (fun _ : nat => @Failed nat (RateLimitError "api" None))
            DEFAULT_RETRY_CONFIG =
  (Thrown (Some (RateLimitError "api" None)), 4).
Proof. reflexivity. Qed.

Example success_on_third_attempt :
  withRetry (fun a : nat => if (a <? 3)%nat
                            then Failed (RateLimitError "api" None)
                            else Resolved a)
            DEFAULT_RETRY_CONFIG =
  (Returned 3, 3).
Proof. reflexivity. Qed.

Example negative_maxRetries_runs_nothing :
  withRetry (fun a : nat => @Resolved nat a)
            {| maxRetries := Integer (-1); baseDelay := 1000;
               maxDelay := 10000; retryableStatusCodes := [] |} =
  (Thrown None, 0).
Proof. reflexivity. Qed.

End ErrorFacts.

(** * Further properties of the matcher *)

Module RegexMore.
Import Str Regex RegexFacts Shapes.

Lemma den_within P r : forall w,
  within P r -> den r w -> Forall (fun c => P c = true) w.
Proof.
  induction r as [|p|a IHa b IHb|a IHa b IHb|g p|n r IH| |];
    intros w W D; simpl in *; subst; try constructor.
  - destruct D as (c & -> & Hc). repeat constructor. auto.
  - destruct D as (w1 & w2 & -> & D1 & D2). destruct W as [Wa Wb].
    apply Forall_app. split; auto.
  - destruct W as [Wa Wb]. destruct D; auto.
  - eapply Forall_impl; [|exact D]. auto.
  - auto.
Qed.

Section Anchors.

Variable A : Type.

(** A pattern that ends in [$] consumes the whole input. *)
Lemma mt_ends_anchored r : forall i s cs (k : cont A) x,
  ends_anchored r ->
  mt r i s cs k = Some x ->
  den r s /\ exists cs', k (i + List.length s) [] cs' = Some x.
Proof.
  induction r as [|p|a IHa b IHb|a IHa b IHb|g p|n r IH| |];
    intros i s cs k x E H; simpl in E; try contradiction.
  - simpl in H.
    destruct (mt_sound _ _ _ _ _ H) as (w1 & s1 & cs1 & -> & D1 & H1).
    destruct (IHb _ _ _ _ _ E H1) as (D2 & cs' & Hk).
    split; [simpl; eauto|].
    exists cs'. now rewrite length_app, Nat.add_assoc.
  - simpl in H. destruct E as [Ea Eb].
    destruct (mt a i s cs k) as [y|] eqn:Ha.
    + injection H as ->. destruct (IHa _ _ _ _ _ Ea Ha) as (D & Hk).
      split; [simpl; auto|exact Hk].
    + destruct (IHb _ _ _ _ _ Eb H) as (D & Hk).
      split; [simpl; auto|exact Hk].
  - simpl in H. destruct (IH _ _ _ _ _ E H) as (D & cs' & Hk).
    split; [exact D|eauto].
  - simpl in H. destruct s; [|discriminate].
    split; [reflexivity|]. exists cs. now rewrite Nat.add_0_r.
Qed.

End Anchors.

(** A pattern that begins with [^] matches at offset 0 or nowhere. *)
Lemma search_from_Bol r s : forall i,
  search_from (Cat Bol r) (S i) s = None.
Proof.
  induction s as [|c s IH]; intros i; simpl; [reflexivity|apply IH].
Qed.

Lemma test_Bol r s :
  test (Cat Bol r) s =
  match match_at (Cat Bol r) 0 s with Some _ => true | None => false end.
Proof.
  unfold test, exec.
  destruct s as [|c s]; simpl.
  - now destruct (match_at (Cat Bol r) 0 []) as [[j cs]|].
  - destruct (match_at (Cat Bol r) 0 (c :: s)) as [[j cs]|]; [reflexivity|].
    now rewrite search_from_Bol.
Qed.

(** What [^...$] accepts is made of the code units the pattern allows. *)
Lemma anchored_test_within P r s :
  ends_anchored r -> within P r ->
  test (Cat Bol r) s = true ->
  den r s /\ Forall (fun c => P c = true) s.
Proof.
  intros E W T. rewrite test_Bol in T.
  destruct (match_at (Cat Bol r) 0 s) as [[j cs]|] eqn:M; [|discriminate].
  unfold match_at in M. simpl in M.
  destruct (mt_ends_anchored _ _ _ _ _ E M) as (D & _).
  split; [exact D|]. eapply den_within; eassumption.
Qed.

(** A greedy repetition followed by [$]: all of the rest must be in the
    class. *)
Lemma rep_greedy_Eol p s : forall i cs,
  rep_greedy p i s cs
    (fun j s' cs' =>
       match s' with [] => Some (j, cs') | _ :: _ => None end) =
  if forallb p s then Some (i + List.length s, cs) else None.
Proof.
  induction s as [|c s IH]; intros i cs; simpl.
  - now rewrite Nat.add_0_r.
  - destruct (p c); simpl; [|reflexivity].
    rewrite IH. destruct (forallb p s); [|reflexivity].
    now rewrite Nat.add_succ_r.
Qed.

(** Removing the code units of a class. *)
Lemma replace_from_Cls p s : forall i,
  replace_from (Cls p) [] 0 i s = filter (fun c => negb (p c)) s.
Proof.
  induction s as [|c s IH]; intros i; [reflexivity|].
  cbn [replace_from filter]. unfold match_at. cbn [mt].
  destruct (p c); cbn [negb app].
  - replace (S i =? i)%nat with false by (symmetry; apply Nat.eqb_neq; lia).
    replace (S i - i - 1) with 0 by lia. apply IH.
  - now rewrite IH.
Qed.

End RegexMore.

(** * Properties of the validators *)

Module ValidatorFacts.
Import Str Regex RegexFacts Shapes RegexMore ReadmeParser Validators.

Lemma test_podNameRegex s :
  test podNameRegex s =
  match s with
  | c :: r => is_alpha c && forallb is_pod_char r
  | [] => false
  end.
Proof.
  change podNameRegex
    with (Cat Bol (Cat (Cls is_alpha) (Cat (star is_pod_char) Eol))).
  rewrite test_Bol. unfold match_at. cbn [mt star Nat.eqb].
  destruct s as [|c r]; [reflexivity|].
  destruct (is_alpha c); [|reflexivity]. cbn [andb].
  rewrite (rep_greedy_Eol is_pod_char r 1 []).
  now destruct (forallb is_pod_char r).
Qed.

(** X12.  [validatePodName] accepts exactly the strings of 1 to 214 code units
    that begin with a letter and go on with letters, digits, underscores
    and hyphens; so an accepted name holds no quote, slash, colon or
    whitespace. *)
Theorem validatePodName_accepts (name : jsval) :
  passes (validatePodName name) =
    match name with
    | JStr (c :: r) =>
        is_alpha c && forallb is_pod_char r
        && (List.length (c :: r) <=? 214)%nat
    | _ => false
    end /\
  (forall s, name = JStr s -> passes (validatePodName name) = true ->
     Forall (fun c => is_pod_char c = true) s).
Proof.
  assert (E : passes (validatePodName name) =
              match name with
              | JStr (c :: r) =>
                  is_alpha c && forallb is_pod_char r
                  && (List.length (c :: r) <=? 214)%nat
              | _ => false
              end).
  { destruct name as [| | | |s]; try reflexivity.
    unfold validatePodName. destruct s as [|c r]; [reflexivity|].
    rewrite test_podNameRegex. simpl truthy. simpl negb. cbv iota.
    destruct (is_alpha c && forallb is_pod_char r); [|reflexivity].
    simpl negb. cbv iota. rewrite Nat.leb_antisym.
    now destruct (214 <? List.length (c :: r))%nat. }
  split; [exact E|].
  intros s -> H. rewrite E in H. destruct s as [|c r]; [discriminate|].
  apply andb_true_iff in H. destruct H as [H _].
  apply andb_true_iff in H. destruct H as [Ha Hr].
  constructor.
  - unfold is_pod_char. now rewrite Ha.
  - apply Forall_forall. now apply forallb_forall.
Qed.

Lemma den_plus p w :
  den (plus p) w -> w <> [] /\ Forall (fun c => p c = true) w.
Proof.
  intros (w1 & w2 & -> & (c & -> & Hc) & Hr). simpl in *.
  split; [discriminate|]. now constructor.
Qed.

Lemma den_chr c w : den (chr c) w -> w = [c].
Proof.
  intros (x & -> & Hx). unfold eqc in Hx. apply Ascii.eqb_eq in Hx.
  now subst.
Qed.

(** X13.  Every version that [validateVersion] accepts is [latest] or three
    non-empty runs of digits separated by dots, followed by nothing or by
    a hyphen or plus sign and a non-empty run of letters, digits, dots
    and hyphens. *)
Theorem validateVersion_accepts_only (version : jsval) :
  passes (validateVersion version) = true ->
  exists s,
    version = JStr s /\
    (s = lit "latest" \/
     exists n1 n2 n3 tag,
       s = n1 ++ "."%char :: n2 ++ "."%char :: n3 ++ tag /\
       (n1 <> [] /\ Forall (fun c => is_digit c = true) n1) /\
       (n2 <> [] /\ Forall (fun c => is_digit c = true) n2) /\
       (n3 <> [] /\ Forall (fun c => is_digit c = true) n3) /\
       (tag = [] \/
        exists sign t,
          tag = sign :: t /\ is_sign sign = true /\
          t <> [] /\ Forall (fun c => is_tag_char c = true) t)).
Proof.
  destruct version as [| | | |s]; try discriminate.
  intros H. exists s. split; [reflexivity|].
  unfold validateVersion in H.
  destruct (negb (truthy s)); [discriminate|].
  destruct (str_eqb s (lit "latest")) eqn:L.
  { left. unfold str_eqb in L.
    now destruct (list_eq_dec ascii_dec s (lit "latest")). }
  right.
  destruct (test versionRegex s) eqn:T; [|discriminate].
  change versionRegex
    with (Cat Bol
            (seq [Cap 1 digits; dot_re; Cap 2 digits; dot_re; Cap 3 digits;
                  opt (Cat (Cls is_sign) (plus is_tag_char)); Eol])) in T.
  rewrite test_Bol in T.
  match type of T with
  | match match_at (Cat Bol ?r) 0 s with _ => _ end = true =>
      destruct (match_at (Cat Bol r) 0 s) as [[j cs]|] eqn:M;
        [|discriminate];
      unfold match_at in M; cbn [mt Nat.eqb] in M;
      assert (E : ends_anchored r) by (simpl; tauto);
      destruct (mt_ends_anchored _ _ _ _ _ E M) as (D & _)
  end.
  cbn [den seq] in D.
  destruct D as (n1 & r1 & -> & D1 & d1 & r2 & -> & Dd1 & n2 & r3 & -> & D2
                 & d2 & r4 & -> & Dd2 & n3 & r5 & -> & D3
                 & tag & r6 & -> & Dt & ->).
  apply den_chr in Dd1, Dd2. subst d1 d2.
  exists n1, n2, n3, tag. rewrite app_nil_r.
  split; [reflexivity|].
  split; [now apply den_plus|]. split; [now apply den_plus|].
  split; [now apply den_plus|].
  destruct Dt as [Dt|Dt].
  - right. destruct Dt as (w1 & t & -> & (sign & -> & Hs) & Dp).
    exists sign, t. apply den_plus in Dp. tauto.
  - left. exact Dt.
Qed.

Lemma validateVersion_accepts_only_witness :
  passes (validateVersion (JStr (lit "1.20.3-beta.1"))) = true /\
  exists s,
    JStr (lit "1.20.3-beta.1") = JStr s /\
    (s = lit "latest" \/
     exists n1 n2 n3 tag,
       s = n1 ++ "."%char :: n2 ++ "."%char :: n3 ++ tag /\
       (n1 <> [] /\ Forall (fun c => is_digit c = true) n1) /\
       (n2 <> [] /\ Forall (fun c => is_digit c = true) n2) /\
       (n3 <> [] /\ Forall (fun c => is_digit c = true) n3) /\
       (tag = [] \/
        exists sign t,
          tag = sign :: t /\ is_sign sign = true /\
          t <> [] /\ Forall (fun c => is_tag_char c = true) t)).
Proof.
  assert (H : passes (validateVersion (JStr (lit "1.20.3-beta.1"))) = true)
    by (vm_compute; reflexivity).
  split; [exact H|].
  exact (@validateVersion_accepts_only (JStr (lit "1.20.3-beta.1")) H).
Defined.

Example validateVersion_examples :
  map (fun v => passes (validateVersion (JStr (lit v))))
      ["latest"; "1.0.0"; "10.2.33+build.7"; "1.0"; "v1.0.0"; "1.0.0-";
       "1.0.0 "; ""]%string =
  [true; true; true; false; false; false; false; false].
Proof. vm_compute. reflexivity. Qed.

Example validatePodName_examples :
  map (fun v => passes (validatePodName (JStr (lit v))))
      ["Alamofire"; "AF_Net-2"; "2Fast"; "_x"; "a b"; "a/b"; ""]%string =
  [true; true; false; false; false; false; false].
Proof. vm_compute. reflexivity. Qed.

End ValidatorFacts.

(** * Whitespace: squashing, trimming and tidy texts *)

Module SpaceFacts.
Import Str Regex RegexFacts Shapes RegexMore ReadmeParser.

Lemma rep_greedy_ws s : forall i cs,
  rep_greedy is_ws i s cs (fun j _ cs' => Some (j, cs')) =
  Some (i + ws_run s, cs).
Proof.
  induction s as [|c s IH]; intros i cs; simpl.
  - now rewrite Nat.add_0_r.
  - destruct (is_ws c); [|now rewrite Nat.add_0_r].
    rewrite IH. now rewrite Nat.add_succ_r.
Qed.

Lemma match_at_ws_plus i s :
  match_at ws_plus i s =
  match s with
  | c :: s' => if is_ws c then Some (S i + ws_run s', []) else None
  | [] => None
  end.
Proof.
  destruct s as [|c s']; [reflexivity|].
  unfold match_at, ws_plus, plus. cbn [mt].
  destruct (is_ws c); [|reflexivity]. apply rep_greedy_ws.
Qed.

Lemma ws_run_le s : ws_run s <= List.length s.
Proof.
  induction s as [|c s IH]; simpl; [lia|]. destruct (is_ws c); lia.
Qed.

Lemma skipn_ws_run s : skipn (ws_run s) s = drop_ws s.
Proof.
  induction s as [|c s IH]; simpl; [reflexivity|].
  destruct (is_ws c); [exact IH|reflexivity].
Qed.

Lemma drop_ws_length s : List.length (drop_ws s) <= List.length s.
Proof.
  induction s as [|c s IH]; simpl; [lia|]. destruct (is_ws c); simpl; lia.
Qed.

Lemma squash_true_drop s : squash true s = squash false (drop_ws s).
Proof.
  induction s as [|c s IH]; simpl; [reflexivity|].
  destruct (is_ws c) eqn:W; [exact IH|]. simpl. now rewrite W.
Qed.

(** [replace(/\s+/g, ' ')] replaces every whitespace run by one space. *)
Lemma replace_ws_plus_squash n : forall s i,
  List.length s <= n ->
  replace_from ws_plus (lit " ") 0 i s = squash false s.
Proof.
  induction n as [|n IH]; intros s i H.
  - destruct s; [reflexivity|simpl in H; lia].
  - destruct s as [|c s]; [reflexivity|].
    cbn [replace_from squash]. rewrite match_at_ws_plus.
    destruct (is_ws c).
    + replace (S i + ws_run s =? i)%nat with false
        by (symmetry; apply Nat.eqb_neq; lia).
      replace (S i + ws_run s - i - 1) with (ws_run s) by lia.
      rewrite ParserFacts.replace_from_skip by apply ws_run_le.
      rewrite skipn_ws_run, squash_true_drop. simpl. f_equal.
      apply IH. pose proof (drop_ws_length s). simpl in H. lia.
    + f_equal. apply IH. simpl in H. lia.
Qed.

Lemma replace_all_ws_plus s :
  replace_all ws_plus (lit " ") s = squash false s.
Proof. apply (replace_ws_plus_squash (n := List.length s)). lia. Qed.

Lemma squash_length f s : List.length (squash f s) <= List.length s.
Proof.
  revert f. induction s as [|c s IH]; intros f; simpl; [lia|].
  pose proof (IH true). pose proof (IH false).
  destruct (is_ws c); [destruct f|]; simpl; lia.
Qed.

Lemma squash_In f s c : In c (squash f s) -> c = " "%char \/ In c s.
Proof.
  revert f. induction s as [|x s IH]; intros f; simpl; [tauto|].
  destruct (is_ws x); [destruct f|]; simpl; intros H.
  - destruct (IH _ H); tauto.
  - destruct H as [H|H]; [now left|]. destruct (IH _ H); tauto.
  - destruct H as [H|H]; [tauto|]. destruct (IH _ H); tauto.
Qed.

Lemma squash_true_head s :
  match squash true s with c :: _ => is_ws c = false | [] => True end.
Proof.
  induction s as [|c s IH]; simpl; [exact I|].
  destruct (is_ws c) eqn:W; [exact IH|exact W].
Qed.

Lemma squash_tidy f s : tidy (squash f s).
Proof.
  revert f. induction s as [|c s IH]; intros f; simpl; [exact I|].
  destruct (is_ws c) eqn:W; [destruct f|].
  - apply IH.
  - simpl. split; [|apply IH]. intros _. split; [reflexivity|].
    apply squash_true_head.
  - simpl. split; [|apply IH]. rewrite W. discriminate.
Qed.

Lemma tidy_squash s : tidy s -> squash false s = s.
Proof.
  induction s as [|c s IH]; simpl; [reflexivity|].
  intros [Hc Ht]. destruct (is_ws c) eqn:W.
  - destruct (Hc eq_refl) as [-> Hn]. f_equal.
    rewrite squash_true_drop.
    destruct s as [|d s']; [reflexivity|].
    simpl drop_ws. rewrite Hn. now apply IH.
  - f_equal. now apply IH.
Qed.

Lemma tidy_drop_ws s : tidy s -> tidy (drop_ws s).
Proof.
  induction s as [|c s IH]; simpl; [auto|].
  intros [Hc Ht]. destruct (is_ws c) eqn:W; [auto|].
  simpl. split; [|exact Ht]. intros W'. congruence.
Qed.

Lemma tidy_app_l y z : tidy (y ++ z) -> tidy y.
Proof.
  induction y as [|c y IH]; simpl; [auto|].
  intros [Hc Ht]. split; [|auto].
  intros W. destruct (Hc W) as [-> Hn]. split; [reflexivity|].
  destruct y; [exact I|exact Hn].
Qed.

Lemma tidy_trim s : tidy s -> tidy (trim s).
Proof.
  intros H. apply tidy_drop_ws in H.
  destruct (ParserFacts.trim_prefix s) as [z Hz]. rewrite Hz in H.
  eapply tidy_app_l; eassumption.
Qed.

Lemma trim_infix s : infix (trim s) s.
Proof.
  destruct (ParserFacts.drop_ws_suffix s) as [a Ha].
  destruct (ParserFacts.trim_prefix s) as [z Hz].
  exists a, z. now rewrite <- Hz.
Qed.

Lemma trim_In s c : In c (trim s) -> In c s.
Proof.
  destruct (trim_infix s) as (a & z & E). intros H. rewrite E.
  apply in_or_app. right. apply in_or_app. now left.
Qed.

Lemma trim_length s : List.length (trim s) <= List.length s.
Proof.
  destruct (trim_infix s) as (a & z & E).
  rewrite E at 2. rewrite !length_app. lia.
Qed.

End SpaceFacts.

(** * Properties of the query sanitizer *)

Module SanitizeFacts.
Import Str Regex RegexFacts Shapes RegexMore ReadmeParser Validators
       SpaceFacts.

Lemma sanitize_unfold q :
  sanitizeSearchQuery q =
  trim (squash false (filter (fun c => negb (is_dangerous c)) q)).
Proof.
  unfold sanitizeSearchQuery. rewrite replace_all_ws_plus.
  unfold replace_all. now rewrite replace_from_Cls.
Qed.

Lemma filter_lacks (P : ascii -> bool) s :
  lacks P s -> filter (fun c => negb (P c)) s = s.
Proof.
  induction s as [|c s IH]; intros L; simpl; [reflexivity|].
  rewrite (L c) by now left. simpl. f_equal. apply IH.
  eapply lacks_tail; eassumption.
Qed.

(** X14.  The sanitized query holds none of the five removed code units, its
    only whitespace is single spaces between other code units, and it is
    no longer than the query.  Sanitizing it again changes nothing. *)
Theorem sanitize_is_clean_and_stable (q : str) :
  let y := sanitizeSearchQuery q in
  lacks is_dangerous y /\
  tidy y /\
  trim y = y /\
  List.length y <= List.length q /\
  sanitizeSearchQuery y = y.
Proof.
  intros y.
  assert (L : lacks is_dangerous y).
  { intros c Hc. unfold y in Hc. rewrite sanitize_unfold in Hc.
    apply trim_In in Hc. apply squash_In in Hc.
    destruct Hc as [->|Hc]; [reflexivity|].
    apply filter_In in Hc. destruct Hc as [_ Hc].
    now apply negb_true_iff in Hc. }
  assert (Ty : tidy y).
  { unfold y. rewrite sanitize_unfold. apply tidy_trim, squash_tidy. }
  assert (Tr : trim y = y).
  { unfold y. rewrite sanitize_unfold. apply ParserFacts.trim_idempotent. }
  split; [exact L|]. split; [exact Ty|]. split; [exact Tr|]. split.
  - unfold y. rewrite sanitize_unfold.
    etransitivity; [apply trim_length|].
    etransitivity; [apply squash_length|]. apply filter_length_le.
  - rewrite sanitize_unfold, (filter_lacks L), (tidy_squash _ Ty).
    exact Tr.
Qed.

Example sanitize_example :
  sanitizeSearchQuery (lit "  <b>Alamo   fire</b> & 'co'  ")
  = lit "bAlamo fire/b co".
Proof. vm_compute. reflexivity. Qed.

Lemma drop_ws_nil s : drop_ws s = [] <-> forallb is_ws s = true.
Proof.
  induction s as [|c s IH]; simpl; [tauto|].
  destruct (is_ws c); simpl; [exact IH|]. split; discriminate.
Qed.

Lemma trim_nil s : trim s = [] <-> forallb is_ws s = true.
Proof.
  split.
  - intros H. apply drop_ws_nil. unfold trim in H.
    apply (f_equal (@rev ascii)) in H. rewrite rev_involutive in H.
    simpl in H. apply drop_ws_nil in H. rewrite forallb_forall in H.
    pose proof (ParserFacts.drop_ws_head s) as Hh.
    destruct (drop_ws s) as [|c r]; [reflexivity|].
    rewrite (H c) in Hh; [discriminate|].
    apply in_rev. rewrite rev_involutive. now left.
  - intros H. apply drop_ws_nil in H. unfold trim. now rewrite H.
Qed.

(** X15.  [validateSearchQuery] accepts exactly the strings of at most 500 code
    units that hold a code unit other than whitespace. *)
Theorem validateSearchQuery_accepts (query : jsval) :
  passes (validateSearchQuery query) =
  match query with
  | JStr s =>
      existsb (fun c => negb (is_ws c)) s && (List.length s <=? 500)%nat
  | _ => false
  end.
Proof.
  destruct query as [| | | |s]; try reflexivity.
  unfold validateSearchQuery.
  assert (E : (List.length (trim s) =? 0)%nat =
              negb (existsb (fun c => negb (is_ws c)) s)).
  { destruct (existsb (fun c => negb (is_ws c)) s) eqn:X; simpl.
    - apply Nat.eqb_neq. intros H. apply length_zero_iff_nil in H.
      apply trim_nil in H. rewrite forallb_forall in H.
      apply existsb_exists in X. destruct X as (c & Hin & Hc).
      rewrite (H c Hin) in Hc. discriminate.
    - apply Nat.eqb_eq, length_zero_iff_nil, trim_nil, forallb_forall.
      intros c Hin. destruct (is_ws c) eqn:W; [reflexivity|].
      assert (existsb (fun c => negb (is_ws c)) s = true).
      { apply existsb_exists. exists c. now rewrite W. }
      congruence. }
  destruct s as [|c r]; [reflexivity|].
  simpl truthy. simpl negb. cbv iota. rewrite E.
  destruct (existsb (fun c0 => negb (is_ws c0)) (c :: r)); [|reflexivity].
  simpl negb. cbv iota. rewrite Nat.leb_antisym.
  now destruct (500 <? List.length (c :: r))%nat.
Qed.

End SanitizeFacts.

(** * Further properties of the README parser *)

Module ParserMore.
Import Str Regex RegexFacts Shapes RegexMore ReadmeParser ParserFacts
       SpaceFacts.

(** *** [deduplicateExamples] *)

Lemma includes_In l x : includes l x = true <-> In x l.
Proof.
  unfold includes. rewrite existsb_exists. split.
  - intros (y & Hin & Hy). unfold str_eqb in Hy.
    destruct (list_eq_dec ascii_dec x y); [now subst|discriminate].
  - intros Hin. exists x. split; [exact Hin|]. unfold str_eqb.
    destruct (list_eq_dec ascii_dec x x); [reflexivity|contradiction].
Qed.

Lemma includes_false l x : includes l x = false <-> ~ In x l.
Proof.
  rewrite <- includes_In. destruct (includes l x); split; intuition congruence.
Qed.

Lemma dedup_fold l : forall seen unique,
  snd (fold_left dedup_step l (seen, unique)) = unique ++ keep_first seen l.
Proof.
  induction l as [|e l IH]; intros seen unique; simpl.
  - now rewrite app_nil_r.
  - destruct (includes seen (hash_of e)); rewrite IH; [reflexivity|].
    now rewrite <- app_assoc.
Qed.

Lemma dedup_keep_first l : deduplicateExamples l = keep_first [] l.
Proof. unfold deduplicateExamples. now rewrite dedup_fold. Qed.

Lemma keep_first_In l : forall seen e,
  In e (keep_first seen l) -> In e l /\ ~ In (hash_of e) seen.
Proof.
  induction l as [|x l IH]; intros seen e; simpl; [tauto|].
  destruct (includes seen (hash_of x)) eqn:I.
  - intros H. destruct (IH _ _ H). tauto.
  - apply includes_false in I. intros [<-|H]; [tauto|].
    destruct (IH _ _ H) as [H1 H2]. split; [tauto|].
    intros Hs. apply H2. now right.
Qed.

Lemma keep_first_NoDup l : forall seen,
  NoDup (map hash_of (keep_first seen l)).
Proof.
  induction l as [|x l IH]; intros seen; simpl; [constructor|].
  destruct (includes seen (hash_of x)); [apply IH|].
  simpl. constructor; [|apply IH].
  intros H. apply in_map_iff in H. destruct H as (e & He & Hin).
  apply keep_first_In in Hin. destruct Hin as [_ Hn]. apply Hn.
  left. now symmetry.
Qed.

Lemma keep_first_cover l : forall seen e,
  In e l ->
  In (hash_of e) seen \/ In (hash_of e) (map hash_of (keep_first seen l)).
Proof.
  induction l as [|x l IH]; intros seen e; simpl; [tauto|].
  destruct (includes seen (hash_of x)) eqn:I.
  - apply includes_In in I. intros [<-|H]; [now left|now apply IH].
  - intros [<-|H]; [right; now left|].
    destruct (IH (hash_of x :: seen) e H) as [[Hx|Hs]|Hk].
    + right. left. exact Hx.
    + now left.
    + right. now right.
Qed.

Lemma keep_first_first l1 : forall seen e l2,
  ~ In (hash_of e) seen ->
  ~ In (hash_of e) (map hash_of l1) ->
  In e (keep_first seen (l1 ++ e :: l2)).
Proof.
  induction l1 as [|x l1 IH]; intros seen e l2 Hs Hl; simpl.
  - apply includes_false in Hs. rewrite Hs. now left.
  - simpl in Hl.
    destruct (includes seen (hash_of x)); [apply IH; tauto|].
    right. apply IH; [|tauto]. intros [H|H]; tauto.
Qed.

Lemma keep_first_seen l : forall seen seen',
  (forall h, In h seen <-> In h seen') ->
  keep_first seen l = keep_first seen' l.
Proof.
  induction l as [|x l IH]; intros seen seen' E; simpl; [reflexivity|].
  assert (I : includes seen (hash_of x) = includes seen' (hash_of x)).
  { destruct (includes seen (hash_of x)) eqn:A;
      destruct (includes seen' (hash_of x)) eqn:B; try reflexivity.
    - apply includes_In in A. apply includes_false in B.
      exfalso. apply B. now apply E.
    - apply includes_In in B. apply includes_false in A.
      exfalso. apply A. now apply E. }
  rewrite <- I. destruct (includes seen (hash_of x)); [now apply IH|].
  f_equal. apply IH. intros h. simpl. rewrite E. tauto.
Qed.

Lemma keep_first_fixed l : forall seen,
  NoDup (map hash_of l) ->
  (forall e, In e l -> ~ In (hash_of e) seen) ->
  keep_first seen l = l.
Proof.
  induction l as [|x l IH]; intros seen N H; simpl; [reflexivity|].
  inversion N as [|? ? Hx Hn]; subst.
  assert (I : includes seen (hash_of x) = false).
  { apply includes_false. apply H. now left. }
  rewrite I. f_equal. apply IH; [exact Hn|].
  intros e He [Hh|Hs].
  - apply Hx. rewrite Hh. now apply in_map.
  - apply (H e); [now right|exact Hs].
Qed.

Lemma keep_first_filter (S : list str) l : forall seen,
  keep_first (S ++ seen) l =
  filter (fun e => negb (includes S (hash_of e))) (keep_first seen l).
Proof.
  induction l as [|x l IH]; intros seen; simpl; [reflexivity|].
  destruct (includes seen (hash_of x)) eqn:A.
  - assert (B : includes (S ++ seen) (hash_of x) = true).
    { apply includes_In, in_or_app. right. now apply includes_In. }
    rewrite B. apply IH.
  - destruct (includes S (hash_of x)) eqn:C.
    + assert (B : includes (S ++ seen) (hash_of x) = true).
      { apply includes_In, in_or_app. left. now apply includes_In. }
      rewrite B. simpl. rewrite C. simpl. rewrite <- IH.
      apply keep_first_seen. intros h. apply includes_In in C.
      rewrite !in_app_iff. simpl. split; [tauto|].
      intros [H|[H|H]]; subst; tauto.
    + assert (B : includes (S ++ seen) (hash_of x) = false).
      { apply includes_false. intros H. apply in_app_or in H.
        apply includes_false in A, C. tauto. }
      rewrite B. simpl. rewrite C. simpl. f_equal. rewrite <- IH.
      apply keep_first_seen. intros h. rewrite !in_app_iff. simpl.
      rewrite in_app_iff. tauto.
Qed.

Lemma keep_first_app l1 : forall seen l2,
  keep_first seen (l1 ++ l2) =
  keep_first seen l1 ++ keep_first (map hash_of l1 ++ seen) l2.
Proof.
  induction l1 as [|x l1 IH]; intros seen l2; simpl; [reflexivity|].
  destruct (includes seen (hash_of x)) eqn:A.
  - rewrite IH. f_equal. apply keep_first_seen. intros h.
    apply includes_In in A. simpl. rewrite !in_app_iff.
    split; [tauto|]. intros [H|[H|H]]; subst; tauto.
  - simpl. f_equal. rewrite IH. f_equal. apply keep_first_seen. intros h.
    simpl. rewrite !in_app_iff. simpl. tauto.
Qed.

(** X16.  The result of [deduplicateExamples] holds no two examples with the
    same hash.  It holds examples of the input only, every hash of the
    input is still represented, and of the examples with one hash the
    first in the input is the one that stays. *)
Theorem dedup_keeps_first_of_each_hash (l : list UsageExample) :
  NoDup (map hash_of (deduplicateExamples l)) /\
  (forall e, In e (deduplicateExamples l) -> In e l) /\
  (forall e, In e l ->
     In (hash_of e) (map hash_of (deduplicateExamples l))) /\
  (forall l1 e l2,
     l = l1 ++ e :: l2 -> ~ In (hash_of e) (map hash_of l1) ->
     In e (deduplicateExamples l)).
Proof.
  rewrite dedup_keep_first. split; [apply keep_first_NoDup|].
  split; [intros e H; now apply keep_first_In in H|].
  split.
  - intros e H. destruct (keep_first_cover l [] e H) as [[]|H']. exact H'.
  - intros l1 e l2 -> H. apply keep_first_first; [tauto|exact H].
Qed.

(** X17.  [deduplicateExamples] is idempotent, and it returns a list whose
    hashes are all different as it is. *)
Theorem dedup_idempotent (l : list UsageExample) :
  deduplicateExamples (deduplicateExamples l) = deduplicateExamples l /\
  (NoDup (map hash_of l) -> deduplicateExamples l = l).
Proof.
  split.
  - rewrite !dedup_keep_first.
    apply keep_first_fixed; [apply keep_first_NoDup|auto].
  - intros N. rewrite dedup_keep_first. apply keep_first_fixed; auto.
Qed.

(** X18.  Deduplicating two lists in a row: the examples kept from the first
    list, then those kept from the second whose hash did not occur in the
    first.  This is how the examples of successive sections combine. *)
Theorem dedup_app (l1 l2 : list UsageExample) :
  deduplicateExamples (l1 ++ l2) =
  deduplicateExamples l1 ++
  filter (fun e => negb (includes (map hash_of l1) (hash_of e)))
         (deduplicateExamples l2).
Proof.
  rewrite !dedup_keep_first, keep_first_app. f_equal.
  apply keep_first_filter.
Qed.

(** *** What every example looks like *)

Lemma detectLanguage_range code0 : In (detectLanguage code0) detectedLanguages.
Proof.
  unfold detectLanguage, detectedLanguages.
  repeat match goal with
         | |- context [if ?b then _ else _] => destruct b
         end; simpl; tauto.
Qed.

Lemma language_of_populated b :
  language_of b <> [] /\
  (block_language b = [] -> In (language_of b) detectedLanguages).
Proof.
  unfold language_of. destruct (block_language b) as [|c l] eqn:E; simpl.
  - split; [|intros _; apply detectLanguage_range].
    pose proof (detectLanguage_range (block_code b)) as H.
    intros Hn. rewrite Hn in H. simpl in H.
    repeat (destruct H as [H|H]; [discriminate|]). exact H.
  - split; [discriminate|discriminate].
Qed.

Lemma relevant_trim_length code0 language0 :
  isRelevantCodeBlock code0 language0 = true ->
  10 <= List.length (trim code0).
Proof.
  unfold isRelevantCodeBlock.
  destruct (negb (truthy code0)); [discriminate|]. simpl.
  destruct (Nat.ltb_spec (List.length (trim code0)) 10); [discriminate|].
  intros _. assumption.
Qed.

Lemma section_examples_shape sectionTitle content :
  Forall (fun e => language e <> [] /\ 10 <= List.length (code e) /\
                   trim (code e) = code e)
         (extractCodeBlocksFromSection sectionTitle content).
Proof.
  rewrite extractCodeBlocksFromSection_indexed.
  apply Forall_forall. intros e He. apply in_map_iff in He.
  destruct He as (ib & <- & Hin). apply filter_In in Hin.
  destruct Hin as [_ Hr]. unfold example_at. simpl.
  split; [apply language_of_populated|].
  split; [eapply relevant_trim_length; exact Hr|apply trim_idempotent].
Qed.

Lemma scan_examples_Forall (P : UsageExample -> Prop) :
  (forall t c, Forall P (extractCodeBlocksFromSection t c)) ->
  forall lines st, Forall P (examples st) ->
  Forall P (flush (fold_left scan_line lines st)).
Proof.
  intros HP.
  assert (Hflush : forall st, Forall P (examples st) -> Forall P (flush st)).
  { intros st H. unfold flush.
    destruct (isInUsageSection st
              && negb (List.length (sectionContent st) =? 0)%nat);
      [|exact H].
    apply Forall_app. split; [exact H|apply HP]. }
  induction lines as [|line lines IH]; intros st H; simpl.
  - now apply Hflush.
  - apply IH. unfold scan_line.
    destruct (test HEADING line); [simpl; now apply Hflush|].
    destruct (isInUsageSection st); [exact H|exact H].
Qed.

(** X19.  Every example that [parseUsageExamples] returns has a non-empty
    language, and its code is trimmed and at least 10 code units long. *)
Theorem examples_are_populated (readme : jsval) :
  Forall (fun e => language e <> [] /\ 10 <= List.length (code e) /\
                   trim (code e) = code e)
         (parseUsageExamples readme).
Proof.
  destruct readme as [| | | |s]; try constructor.
  unfold parseUsageExamples. destruct (invalid (JStr s)); [constructor|].
  apply Forall_forall. intros e He.
  rewrite dedup_keep_first in He. apply keep_first_In in He.
  destruct He as [He _].
  revert e He. apply Forall_forall.
  assert (S : Forall (fun e => language e <> [] /\
                               10 <= List.length (code e) /\
                               trim (code e) = code e)
                     (sectionExamples s)).
  { unfold sectionExamples.
    apply scan_examples_Forall; [apply section_examples_shape|constructor]. }
  destruct (List.length (sectionExamples s) =? 0)%nat; [|exact S].
  apply Forall_app. split; [exact S|apply section_examples_shape].
Qed.

(** *** Texts without a fence *)

Lemma exec_from_lacks P r s : forall skip i,
  req P r -> lacks P s -> exec_from r skip i s = [].
Proof.
  induction s as [|c s IH]; intros skip i R L; destruct skip; simpl;
    try reflexivity;
    try (rewrite (@match_at_lacks P r i _ R L));
    try reflexivity;
    apply IH; try assumption; eapply lacks_tail; eassumption.
Qed.

Lemma CODE_BLOCK_needs_backtick : req (eqc "`") CODE_BLOCK_PATTERN.
Proof.
  cbv [req CODE_BLOCK_PATTERN seq word map lit list_ascii_of_string chr].
  req_walk.
Qed.

Lemma extractCodeBlocks_lacks s : lacks (eqc "`") s -> extractCodeBlocks s = [].
Proof.
  intros L. unfold extractCodeBlocks, exec_all.
  now rewrite (@exec_from_lacks _ _ s 0 0 CODE_BLOCK_needs_backtick L).
Qed.

Lemma lacks_app P a b : lacks P a -> lacks P b -> lacks P (a ++ b).
Proof. intros Ha Hb c Hc. apply in_app_or in Hc. destruct Hc; auto. Qed.

Lemma split_nl_lacks P s : lacks P s -> Forall (lacks P) (split_nl s).
Proof.
  induction s as [|c s IH]; intros L; simpl.
  - repeat constructor. intros c [].
  - assert (Ls : lacks P s) by (eapply lacks_tail; eassumption).
    specialize (IH Ls).
    destruct (Ascii.eqb c LF).
    + constructor; [intros x []|exact IH].
    + destruct (split_nl s) as [|l ls]; [repeat constructor|].
      * intros x [<-|[]]. apply L. now left.
      * inversion IH as [|? ? Hl Hls]; subst. constructor; [|exact Hls].
        intros x [<-|Hx]; [apply L; now left|now apply Hl].
Qed.

Lemma join_nl_lacks P ls :
  P LF = false -> Forall (lacks P) ls -> lacks P (join_nl ls).
Proof.
  intros HLF. induction 1 as [|l ls Hl Hls IH]; simpl; [intros c []|].
  destruct ls as [|l' ls']; [exact Hl|].
  apply lacks_app; [exact Hl|].
  intros c [<-|Hc]; [exact HLF|now apply IH].
Qed.

Lemma scan_lacks_backtick lines : forall st,
  Forall (lacks (eqc "`")) lines ->
  examples st = [] ->
  Forall (lacks (eqc "`")) (sectionContent st) ->
  flush (fold_left scan_line lines st) = [].
Proof.
  assert (Hflush : forall st, examples st = [] ->
            Forall (lacks (eqc "`")) (sectionContent st) -> flush st = []).
  { intros st He Hc. unfold flush. rewrite He.
    destruct (isInUsageSection st
              && negb (List.length (sectionContent st) =? 0)%nat);
      [|reflexivity].
    simpl. unfold extractCodeBlocksFromSection.
    rewrite extractCodeBlocks_lacks; [reflexivity|].
    apply join_nl_lacks; [reflexivity|exact Hc]. }
  induction lines as [|line lines IH]; intros st Hl He Hc; simpl.
  - now apply Hflush.
  - inversion Hl as [|? ? H1 H2]; subst. apply IH; [exact H2| |].
    + unfold scan_line. destruct (test HEADING line); simpl.
      * now apply Hflush.
      * now destruct (isInUsageSection st).
    + unfold scan_line. destruct (test HEADING line); simpl.
      * constructor.
      * destruct (isInUsageSection st); simpl; [|exact Hc].
        apply Forall_app. split; [exact Hc|now constructor].
Qed.

(** X20.  A text without a backtick holds no fenced block, and
    [parseUsageExamples] returns no example for it. *)
Theorem no_backtick_no_examples (s : str) :
  lacks (eqc "`") s ->
  extractCodeBlocks s = [] /\ parseUsageExamples (JStr s) = [].
Proof.
  intros L. split; [now apply extractCodeBlocks_lacks|].
  unfold parseUsageExamples. destruct (invalid (JStr s)); [reflexivity|].
  assert (S : sectionExamples s = []).
  { unfold sectionExamples. apply scan_lacks_backtick;
      [now apply split_nl_lacks|reflexivity|constructor]. }
  rewrite S. simpl. unfold extractCodeBlocksFromSection.
  now rewrite extractCodeBlocks_lacks.
Qed.

Lemma no_backtick_no_examples_witness :
  let s := doc ["## Usage"; ""; "Call run() on the client."]%string in
  lacks (eqc "`") s /\
  extractCodeBlocks s = [] /\ parseUsageExamples (JStr s) = [].
Proof.
  intros s.
  assert (L : lacks (eqc "`") s).
  { intros c Hc. vm_compute in Hc.
    repeat (destruct Hc as [<-|Hc]; [reflexivity|]). destruct Hc. }
  split; [exact L|]. exact (@no_backtick_no_examples s L).
Defined.

(** *** The blocks of a text *)

Lemma matches_from_weaken r whole ms : forall lo lo',
  lo' <= lo -> matches_from r whole lo ms -> matches_from r whole lo' ms.
Proof.
  destruct ms as [|[[a b] cs] rest]; simpl; [auto|].
  intros lo lo' H (H1 & H2 & H3). repeat split; auto. lia.
Qed.

Lemma skipn_cons_eq (whole : str) i c s :
  skipn i whole = c :: s -> skipn (S i) whole = s.
Proof.
  revert i. induction whole as [|x whole IH]; intros i H.
  - destruct i; discriminate.
  - destruct i; simpl in *; [now injection H|]. now apply IH.
Qed.

Lemma exec_from_matches r whole s : forall skip i,
  s = skipn i whole ->
  matches_from r whole (i + skip) (exec_from r skip i s).
Proof.
  induction s as [|c s IH]; intros skip i Hs.
  - destruct skip; simpl; [|exact I].
    destruct (match_at r i []) as [[j cs]|] eqn:M; simpl; [|exact I].
    rewrite <- Hs, M. repeat split. lia.
  - assert (Hs' : s = skipn (S i) whole)
      by (symmetry; eapply skipn_cons_eq; eauto).
    destruct skip; simpl.
    + destruct (match_at r i (c :: s)) as [[j cs]|] eqn:M; simpl.
      * rewrite <- Hs, M. split; [lia|]. split; [reflexivity|].
        destruct (match_at_sound _ _ _ M) as (w & s' & _ & _ & ->).
        eapply matches_from_weaken; [|apply (IH _ _ Hs')].
        destruct (Nat.eqb_spec (i + List.length w) i); lia.
      * eapply matches_from_weaken; [|apply (IH _ _ Hs')]. lia.
    + eapply matches_from_weaken; [|apply (IH _ _ Hs')]. lia.
Qed.

Lemma den_seq_chr l : forall w, den (seq (map chr l)) w -> w = l.
Proof.
  induction l as [|c l IH]; intros w D; simpl in D; [exact D|].
  destruct l as [|c' l'].
  - simpl in D. destruct D as (x & -> & Hx). unfold eqc in Hx.
    apply Ascii.eqb_eq in Hx. now subst.
  - change (map chr (c' :: l')) with (chr c' :: map chr l') in D.
    cbn [den] in D.
    destruct D as (w1 & w2 & -> & (x & -> & Hx) & D2).
    unfold eqc in Hx. apply Ascii.eqb_eq in Hx. subst x.
    simpl. f_equal. apply IH. exact D2.
Qed.

Lemma den_word s w : den (word s) w -> w = lit s.
Proof. apply den_seq_chr. Qed.

Lemma den_CODE_BLOCK w :
  den CODE_BLOCK_PATTERN w ->
  exists rest, w = lit "```" ++ rest /\ 5 <= List.length rest.
Proof.
  intros D.
  change CODE_BLOCK_PATTERN
    with (Cat (word "```")
              (seq [opt (Cap 1 word_plus); ws_star; chr LF;
                    Cap 2 (star_lazy is_any); chr LF; word "```"])) in D.
  cbn [den seq] in D.
  destruct D as (w1 & w2 & -> & D1 & w3 & w4 & -> & _ & w5 & w6 & -> & _
                 & w7 & w8 & -> & (c1 & -> & _) & w9 & w10 & -> & _
                 & w11 & w12 & -> & (c2 & -> & _) & D2).
  apply den_word in D1, D2. subst w1 w12.
  eexists. split; [reflexivity|].
  repeat (rewrite length_app; simpl). lia.
Qed.

Lemma blocks_spaced whole ms : forall lo,
  matches_from CODE_BLOCK_PATTERN whole lo ms ->
  spaced 8 (map (fun m : nat * nat * caps => fst (fst m)) ms) /\
  Forall (fun m : nat * nat * caps =>
            lo <= fst (fst m) /\
            firstn 3 (skipn (fst (fst m)) whole) = lit "```" /\
            fst (fst m) + 8 <= List.length whole) ms.
Proof.
  induction ms as [|[[a b] cs] rest IH]; intros lo H; simpl.
  - split; [exact I|constructor].
  - destruct H as (Hlo & M & Hrest).
    destruct (match_at_sound _ _ _ M) as (w & s' & Hw & D & ->).
    destruct (den_CODE_BLOCK D) as (tail & -> & Ht).
    assert (Hlen : a + 8 <= List.length whole).
    { assert (E : List.length (skipn a whole) =
                  List.length ((lit "```" ++ tail) ++ s')) by now rewrite Hw.
      rewrite length_skipn, !length_app in E. simpl in E. lia. }
    assert (Hb : (a + List.length (lit "```" ++ tail) =? a)%nat = false).
    { apply Nat.eqb_neq. rewrite length_app. simpl. lia. }
    rewrite Hb in Hrest. destruct (IH _ Hrest) as [Hs Hf].
    split; [split; [|exact Hs]|].
    + destruct rest as [|[[a' b'] cs'] rest']; [exact I|]. simpl.
      inversion Hf as [|? ? [Ha' _] _]; subst. simpl in Ha'. lia.
    + constructor.
      * simpl. split; [exact Hlo|]. split; [|exact Hlen].
        rewrite Hw. reflexivity.
      * eapply Forall_impl; [|exact Hf].
        intros [[a' b'] cs'] (H1 & H2 & H3). simpl in *.
        repeat split; auto. lia.
Qed.

(** X21.  The blocks of a text come in the order of the text and do not
    overlap: each [originalIndex] is the offset of an opening fence, at
    least 8 code units before the end of the text and before the next
    block. *)
Theorem blocks_in_text_order (content : str) :
  spaced 8 (map originalIndex (extractCodeBlocks content)) /\
  Forall (fun b =>
            firstn 3 (skipn (originalIndex b) content) = lit "```" /\
            originalIndex b + 8 <= List.length content)
         (extractCodeBlocks content).
Proof.
  unfold extractCodeBlocks, exec_all.
  pose proof (@exec_from_matches CODE_BLOCK_PATTERN content content 0 0
                eq_refl) as H.
  apply blocks_spaced in H. destruct H as [Hs Hf].
  split.
  - rewrite map_map.
    erewrite map_ext; [exact Hs|]. now intros [[a b] cs].
  - apply Forall_map. eapply Forall_impl; [|exact Hf].
    intros [[a b] cs] (_ & H2 & H3). simpl in *. auto.
Qed.

(** *** The cleaned text *)

Lemma search_from_settled s : forall i,
  settled s -> search_from BLANK_LINES i s = None.
Proof.
  induction s as [|c s IH]; intros i H; cbn [search_from];
    rewrite match_at_BLANK_LINES; [reflexivity|].
  destruct H as [H1 H2].
  destruct (Ascii.eqb c LF) eqn:E; [|now apply IH].
  apply Ascii.eqb_eq in E. specialize (H1 E).
  destruct (Nat.leb_spec 2 (lf_count s)); [lia|]. now apply IH.
Qed.

(** X22.  The cleaned text is trimmed, and nowhere in it do three line feeds
    follow each other with only whitespace between them. *)
Theorem cleaned_text_has_no_blank_runs (readme : jsval) :
  test BLANK_LINES (cleanReadmeContent readme) = false /\
  trim (cleanReadmeContent readme) = cleanReadmeContent readme.
Proof.
  assert (E : cleanReadmeContent readme = [] \/
              exists s, cleanReadmeContent readme = clean_str s).
  { destruct readme as [| | | |s]; try (now left).
    unfold cleanReadmeContent. destruct (invalid (JStr s)); [now left|].
    right. now exists s. }
  destruct E as [->|(s & ->)]; [split; reflexivity|].
  split.
  - unfold test, exec.
    now rewrite (@search_from_settled (clean_str s) 0 (clean_str_settled s)).
  - unfold clean_str. apply trim_idempotent.
Qed.

(** *** The installation probes *)

Lemma skipn_length_app (A : Type) (pre x : list A) :
  skipn (List.length pre) (pre ++ x) = x.
Proof. induction pre; simpl; auto. Qed.

Lemma firstn_length_app (A : Type) (w x : list A) :
  firstn (List.length w) (w ++ x) = w.
Proof. induction w; simpl; [reflexivity|]. now f_equal. Qed.

(** What [match] returns is a part of the text that the pattern denotes. *)
Lemma match0_den r s m : match0 r s = Some m -> den r m /\ infix m s.
Proof.
  unfold match0, exec.
  destruct (search_from r 0 s) as [[[a b] cs]|] eqn:S; [|discriminate].
  intros [= <-].
  destruct (search_from_sound _ _ _ S) as (pre & w & post & -> & D & -> & ->).
  unfold substring. simpl.
  replace (List.length pre + List.length w - List.length pre)
    with (List.length w) by lia.
  rewrite skipn_length_app, firstn_length_app.
  split; [exact D|]. now exists pre, post.
Qed.

Lemma den_seq_ci l : forall w,
  den (seq (map (fun c => Cls (is_ci c)) l)) w -> map upper w = map upper l.
Proof.
  induction l as [|c l IH]; intros w D; simpl in D; [now subst|].
  destruct l as [|c' l'].
  - simpl in D. destruct D as (x & -> & Hx). unfold is_ci in Hx.
    apply Ascii.eqb_eq in Hx. simpl. now rewrite Hx.
  - change (map (fun c => Cls (is_ci c)) (c' :: l'))
      with (Cls (is_ci c') :: map (fun c => Cls (is_ci c)) l') in D.
    cbn [den] in D.
    destruct D as (w1 & w2 & -> & (x & -> & Hx) & D2).
    unfold is_ci in Hx. apply Ascii.eqb_eq in Hx.
    simpl. rewrite Hx. f_equal. apply IH. exact D2.
Qed.

Lemma den_word_ci s w : den (word_ci s) w -> map upper w = map upper (lit s).
Proof. apply den_seq_ci. Qed.

(** X23.  Every field that [extractInstallationInstructions] returns is a part
    of the text.  [podfile] is the word pod in any case, whitespace, a
    quote, a non-empty name without quotes and a quote; [carthage] is the
    word github, whitespace and a quoted owner and repository separated
    by a slash; [spm] is [https://github.com/] followed by at least one
    code unit, none of them whitespace or a closing parenthesis. *)
Theorem installation_fields_shape (s : str) (r : InstallationInstructions) :
  extractInstallationInstructions (JStr s) = Ok r ->
  (forall m, podfile r = Some m ->
     infix m s /\
     exists kw sp q1 name q2,
       m = kw ++ sp ++ q1 :: name ++ [q2] /\
       map upper kw = lit "POD" /\
       (sp <> [] /\ Forall (fun c => is_ws c = true) sp) /\
       quote q1 = true /\ quote q2 = true /\
       (name <> [] /\ Forall (fun c => not_quote c = true) name)) /\
  (forall m, carthage r = Some m ->
     infix m s /\
     exists kw sp q1 owner repo q2,
       m = kw ++ sp ++ q1 :: owner ++ "/"%char :: repo ++ [q2] /\
       map upper kw = lit "GITHUB" /\
       (sp <> [] /\ Forall (fun c => is_ws c = true) sp) /\
       quote q1 = true /\ quote q2 = true /\
       (owner <> [] /\ Forall (fun c => not_quote c = true) owner) /\
       (repo <> [] /\ Forall (fun c => not_quote c = true) repo)) /\
  (forall m, spm r = Some m ->
     infix m s /\
     exists rest,
       m = lit "https://github.com/" ++ rest /\
       rest <> [] /\
       Forall (fun c => is_ws c = false /\ c <> ")"%char) rest).
Proof.
  intros [= <-]. simpl. split; [|split].
  - intros m H. apply match0_den in H. destruct H as [D I].
    split; [exact I|].
    change PODFILE
      with (Cat (word_ci "pod")
                (Cat ws_plus (Cat (Cls quote)
                                  (Cat (plus not_quote) (Cls quote))))) in D.
    cbn [den] in D.
    destruct D as (kw & r1 & -> & Dk & sp & r2 & -> & Ds & w1 & r3 & ->
                   & (q1 & -> & Hq1) & name & w2 & -> & Dn & (q2 & -> & Hq2)).
    exists kw, sp, q1, name, q2.
    apply den_word_ci in Dk.
    apply ValidatorFacts.den_plus in Ds, Dn.
    repeat split; try tauto.
  - intros m H. apply match0_den in H. destruct H as [D I].
    split; [exact I|].
    change CARTHAGE
      with (Cat (word_ci "github")
             (Cat ws_plus
               (Cat (Cls quote)
                 (Cat (plus not_quote)
                   (Cat (chr "/")
                     (Cat (plus not_quote) (Cls quote))))))) in D.
    cbn [den] in D.
    destruct D as (kw & r1 & -> & Dk & sp & r2 & -> & Ds & w1 & r3 & ->
                   & (q1 & -> & Hq1) & owner & r4 & -> & Do
                   & sl & r5 & -> & Dsl & repo & w2 & -> & Dr
                   & (q2 & -> & Hq2)).
    exists kw, sp, q1, owner, repo, q2.
    apply den_word_ci in Dk. apply ValidatorFacts.den_chr in Dsl. subst sl.
    apply ValidatorFacts.den_plus in Ds, Do, Dr.
    repeat split; try tauto.
  - intros m H. apply match0_den in H. destruct H as [D I].
    split; [exact I|].
    change SPM
      with (Cat (word "https://github.com/")
                (plus (fun c => negb (is_ws c || Ascii.eqb c ")")))) in D.
    cbn [den] in D.
    destruct D as (w1 & rest & -> & Dw & Dr).
    apply den_word in Dw. subst w1. exists rest.
    apply ValidatorFacts.den_plus in Dr. destruct Dr as [Hne Hf].
    split; [reflexivity|]. split; [exact Hne|].
    eapply Forall_impl; [|exact Hf]. intros c Hc. simpl in Hc.
    apply negb_true_iff, orb_false_iff in Hc. destruct Hc as [Hw Hp].
    split; [exact Hw|]. intros ->. discriminate.
Qed.

Lemma installation_fields_shape_witness :
  let s := doc ["pod 'MyLibrary', '~> 1.0'";
                "see https://github.com/user/MyLibrary) for more"]%string in
  let r := {| podfile := Some (lit "pod 'MyLibrary'");
              carthage := None;
              spm := Some (lit "https://github.com/user/MyLibrary") |} in
  extractInstallationInstructions (JStr s) = Ok r /\
  (forall m, spm r = Some m ->
     infix m s /\
     exists rest,
       m = lit "https://github.com/" ++ rest /\
       rest <> [] /\
       Forall (fun c => is_ws c = false /\ c <> ")"%char) rest).
Proof.
  intros s r.
  assert (H : extractInstallationInstructions (JStr s) = Ok r)
    by (vm_compute; reflexivity).
  split; [exact H|].
  exact (proj2 (proj2 (@installation_fields_shape s r H))).
Defined.

(** *** What the hash of an example ignores *)

Lemma normalizedCode_squash e :
  normalizedCode e = toLowerCase (trim (squash false (code e))).
Proof. unfold normalizedCode. now rewrite replace_all_ws_plus. Qed.

Lemma is_ws_lower c : is_ws (lower c) = is_ws c.
Proof. destruct c as [[] [] [] [] [] [] [] []]; reflexivity. Qed.

Lemma squash_lower s : forall f,
  squash f (map lower s) = map lower (squash f s).
Proof.
  induction s as [|c s IH]; intros f; simpl; [reflexivity|].
  rewrite is_ws_lower. destruct (is_ws c); [destruct f|]; simpl;
    now rewrite IH.
Qed.

Lemma drop_ws_lower s : drop_ws (map lower s) = map lower (drop_ws s).
Proof.
  induction s as [|c s IH]; simpl; [reflexivity|].
  rewrite is_ws_lower. now destruct (is_ws c).
Qed.

Lemma trim_lower s : trim (map lower s) = map lower (trim s).
Proof.
  unfold trim. now rewrite drop_ws_lower, <- map_rev, drop_ws_lower, map_rev.
Qed.

Lemma normalizedCode_lower e :
  normalizedCode e = trim (squash false (toLowerCase (code e))).
Proof.
  rewrite normalizedCode_squash. unfold toLowerCase.
  now rewrite squash_lower, trim_lower.
Qed.

Lemma dedup_pair e1 e2 :
  hash_of e1 = hash_of e2 -> deduplicateExamples [e1; e2] = [e1].
Proof.
  intros H.
  assert (I : includes [hash_of e1] (hash_of e2) = true).
  { apply includes_In. left. exact H. }
  rewrite dedup_keep_first. cbn [keep_first].
  change (includes [] (hash_of e1)) with false. cbv iota.
  now rewrite I.
Qed.

Lemma lower_small_letter c : lower (small_letter c) = lower c.
Proof. destruct c as [[] [] [] [] [] [] [] []]; reflexivity. Qed.

Lemma toLowerCase_small_letters s :
  toLowerCase (map small_letter s) = toLowerCase s.
Proof.
  unfold toLowerCase. rewrite map_map. apply map_ext.
  exact lower_small_letter.
Qed.

(** X24.  Two examples in the same language whose codes differ only in the
    case of the letters [A] to [Z] have the same hash: of the two, only
    the first survives deduplication. *)
Theorem hash_ignores_ascii_case (e1 e2 : UsageExample) :
  language e1 = language e2 ->
  map small_letter (code e1) = map small_letter (code e2) ->
  hash_of e1 = hash_of e2 /\ deduplicateExamples [e1; e2] = [e1].
Proof.
  intros Hl Hc.
  assert (H : hash_of e1 = hash_of e2).
  { unfold hash_of. rewrite !normalizedCode_lower, Hl.
    rewrite <- (toLowerCase_small_letters (code e1)).
    rewrite <- (toLowerCase_small_letters (code e2)).
    now rewrite Hc. }
  split; [exact H|now apply dedup_pair].
Qed.

Lemma squash_true_ws w b :
  Forall (fun c => is_ws c = true) w -> squash true (w ++ b) = squash true b.
Proof.
  induction 1 as [|c w Hc _ IH]; simpl; [reflexivity|]. now rewrite Hc.
Qed.

Lemma squash_ws_block f w b :
  w <> [] -> Forall (fun c => is_ws c = true) w ->
  squash f (w ++ b) = (if f then [] else [" "%char]) ++ squash true b.
Proof.
  intros Hn H. destruct H as [|c w Hc Hw]; [contradiction|].
  simpl. rewrite Hc, (squash_true_ws _ Hw). now destruct f.
Qed.

Lemma squash_same_gaps a w1 w2 b : forall f,
  w1 <> [] -> w2 <> [] ->
  Forall (fun c => is_ws c = true) w1 ->
  Forall (fun c => is_ws c = true) w2 ->
  squash f (a ++ w1 ++ b) = squash f (a ++ w2 ++ b).
Proof.
  intros f N1 N2 H1 H2. revert f.
  induction a as [|c a IH]; intros f; simpl.
  - now rewrite !squash_ws_block.
  - destruct (is_ws c); [destruct f|]; now rewrite IH.
Qed.

(** X25.  Two examples in the same language whose codes differ only in one
    stretch of whitespace, non-empty in both, have the same hash: of the
    two, only the first survives deduplication. *)
Theorem hash_ignores_spacing (e1 e2 : UsageExample) (a w1 w2 b : str) :
  language e1 = language e2 ->
  code e1 = a ++ w1 ++ b ->
  code e2 = a ++ w2 ++ b ->
  w1 <> [] -> w2 <> [] ->
  Forall (fun c => is_ws c = true) w1 ->
  Forall (fun c => is_ws c = true) w2 ->
  hash_of e1 = hash_of e2 /\ deduplicateExamples [e1; e2] = [e1].
Proof.
  intros Hl C1 C2 N1 N2 H1 H2.
  assert (H : hash_of e1 = hash_of e2).
  { unfold hash_of. rewrite !normalizedCode_squash, Hl, C1, C2.
    now rewrite (squash_same_gaps a b false N1 N2 H1 H2). }
  split; [exact H|now apply dedup_pair].
Qed.

Lemma hash_ignores_ascii_case_witness :
  let e1 := {| title := lit "Usage"; description := None;
               code := lit "Import Foundation"; language := lit "swift" |} in
  let e2 := {| title := lit "Setup"; description := None;
               code := lit "import foundation"; language := lit "swift" |} in
  language e1 = language e2 /\
  map small_letter (code e1) = map small_letter (code e2) /\
  hash_of e1 = hash_of e2 /\ deduplicateExamples [e1; e2] = [e1].
Proof.
  intros e1 e2.
  assert (Hl : language e1 = language e2) by reflexivity.
  assert (Hc : map small_letter (code e1) = map small_letter (code e2))
    by (vm_compute; reflexivity).
  split; [exact Hl|]. split; [exact Hc|].
  exact (@hash_ignores_ascii_case e1 e2 Hl Hc).
Defined.

Lemma hash_ignores_spacing_witness :
  let a := lit "let x" in
  let b := lit "= 1" in
  let w1 := [" "%char] in
  let w2 := [" "%char; LF; " "%char] in
  let e1 := {| title := lit "Usage"; description := None;
               code := a ++ w1 ++ b; language := lit "swift" |} in
  let e2 := {| title := lit "Setup"; description := None;
               code := a ++ w2 ++ b; language := lit "swift" |} in
  language e1 = language e2 /\
  code e1 = a ++ w1 ++ b /\ code e2 = a ++ w2 ++ b /\
  w1 <> [] /\ w2 <> [] /\
  Forall (fun c => is_ws c = true) w1 /\
  Forall (fun c => is_ws c = true) w2 /\
  hash_of e1 = hash_of e2 /\ deduplicateExamples [e1; e2] = [e1].
Proof.
  intros a b w1 w2 e1 e2.
  assert (Hl : language e1 = language e2) by reflexivity.
  assert (C1 : code e1 = a ++ w1 ++ b) by reflexivity.
  assert (C2 : code e2 = a ++ w2 ++ b) by reflexivity.
  assert (N1 : w1 <> []) by discriminate.
  assert (N2 : w2 <> []) by discriminate.
  assert (H1 : Forall (fun c => is_ws c = true) w1)
    by (repeat constructor).
  assert (H2 : Forall (fun c => is_ws c = true) w2)
    by (repeat constructor).
  repeat (split; [assumption|]).
  exact (@hash_ignores_spacing e1 e2 a w1 w2 b Hl C1 C2 N1 N2 H1 H2).
Defined.

End ParserMore.
